(** * The migration manager of coral-server

    A shallow embedding of [Manager] (the class that discovers, orders and
    runs the database migrations, once per tenant) together with the
    properties its specification states about it.

    The class is asynchronous but strictly sequential: every [await]
    settles before the next statement runs.  Its methods are therefore
    embedded in a state-and-exception monad.  The state holds the manager
    instance ([this]), the database behind the [mongo] handle, and a
    chronological log of every call the manager makes to one of its
    collaborators (record store, tenant source, migration hooks); the
    temporal properties are stated on that log.  Logging and timing have no
    bearing on the control flow and are left out. *)

From Stdlib Require Import List NArith ZArith Ascii String Bool Lia.
From Stdlib Require Import Sorting.Sorted Sorting.Permutation.
Import ListNotations.

Set Implicit Arguments.

(** ** Migration records *)

(** Modelled from the spec: the record type is declared in
    coral-server/models/migration, outside the manager's own file.  A
    record carries the [version] it is about and one of three
    statuses; [createdAt] is kept implicitly, as the position of the record
    in the stored sequence. *)
Inductive Status : Type := completed | skipped | failed.

Record MigrationRecord : Type := mkRecord {
  record_version : N;
  record_status : Status
}.

(** [record.failed], the field [pending] tests. *)
Definition record_failed (record : MigrationRecord) : bool :=
  match record_status record with
  | failed => true
  | _ => false
  end.

(** ** Thrown values *)

(** What a [throw] can carry: a plain [Error] with its message, or the
    [FailedMigrationDetectedError] built from the offending record. *)
Inductive Thrown : Type :=
| Error (message : string)
| FailedMigrationDetectedError (record : MigrationRecord).

Definition alreadyExecuted : Thrown :=
  Error "pending migrations have already been executed".

Definition skipOnNonEmptyStore : Thrown :=
  Error "tried to skip migrations when there is incomplete migrations already in the database".

(** ** Tenants and the call log *)

Record Tenant : Type := mkTenant { tenant_id : string }.

Inductive HookKind : Type := Up | Test | Down.

(** One entry per call that leaves the manager.  A hook invocation records
    the migration version, the tenant it ran for and what it threw, if
    anything. *)
Inductive Call : Type :=
| RetrieveAll
| CreateRecord (version : N)
| CreateFailedRecord (version : N)
| CreateSkippedRecords (versions : list N)
| IterateTenants (yielded : list Tenant)
| Invoke (kind : HookKind) (version : N) (tenantID : string)
         (thrown : option Thrown).

Definition is_hook (c : Call) : bool :=
  match c with Invoke _ _ _ _ => true | _ => false end.

Definition is_write (c : Call) : bool :=
  match c with
  | CreateRecord _ | CreateFailedRecord _ | CreateSkippedRecords _ => true
  | _ => false
  end.

Definition is_read (c : Call) : bool :=
  match c with RetrieveAll => true | _ => false end.

(** ** Completions *)

(** How a call ends: it returns a value or it throws. *)
Inductive Completion (A : Type) : Type :=
| Returned (a : A)
| Threw (e : Thrown).
Arguments Threw {A} e.

(** ** [Array.prototype.sort] *)

(** The built-in sort, as a stable insertion sort driven by a comparator
    that answers a negative number, zero or a positive number. *)
Section ArraySort.
Variable A : Type.
Variable compareFn : A -> A -> Z.

Fixpoint insert_sorted (a : A) (l : list A) : list A :=
  match l with
  | [] => [a]
  | b :: rest =>
      if (compareFn a b <=? 0)%Z then a :: b :: rest
      else b :: insert_sorted a rest
  end.

Fixpoint array_sort (l : list A) : list A :=
  match l with
  | [] => []
  | a :: rest => insert_sorted a (array_sort rest)
  end.
End ArraySort.

Section Engine.

(** Everything the database holds besides the migration records; the
    hooks are free to change it in any way. *)
Variable Data : Type.

Record Db : Type := mkDb {
  records : list MigrationRecord;
  data : Data
}.

(** A lifecycle hook receives the database handle and a tenant id.  It
    may change the database and either returns or throws. *)
Definition Hook : Type := Db -> string -> Db * option Thrown.

(** ** Migration units *)

(** [version] is [parseInt] of the leading digits of the file name, a
    natural number; [test] and [down] are optional methods. *)
Record Migration : Type := mkMigration {
  version : N;
  name : string;
  up : Hook;
  test : option Hook;
  down : option Hook
}.

(** Modelled from the spec: the tenant source (coral-server's
    [TenantCache], declared outside the manager's own file) is a restartable
    producer of a finite sequence of tenants; each iteration asks it
    anew, so what it yields may depend on the database at that time. *)
Definition TenantCache : Type := Db -> list Tenant.

(** ** The manager instance and the machine state *)

Record Manager : Type := mkManager {
  migrations : list Migration;
  tenants : TenantCache;
  ran : bool
}.

Record State : Type := mkState {
  this : Manager;
  mongo : Db;
  calls : list Call
}.

Definition M (A : Type) : Type := State -> Completion A * State.

Definition ret {A} (a : A) : M A := fun s => (Returned a, s).

Definition throw {A} (e : Thrown) : M A := fun s => (Threw e, s).

Definition bind {A B} (m : M A) (k : A -> M B) : M B :=
  fun s =>
    match m s with
    | (Returned a, s') => k a s'
    | (Threw e, s') => (Threw e, s')
    end.

Definition try_catch {A} (body : M A) (handler : Thrown -> M A) : M A :=
  fun s =>
    match body s with
    | (Returned a, s') => (Returned a, s')
    | (Threw err, s') => handler err s'
    end.

Notation "x <- m ;; k" := (bind m (fun x => k))
  (at level 61, m at next level, right associativity).
Notation "m ;; k" := (bind m (fun _ => k))
  (at level 61, right associativity).

(** [for (const x of xs) body(x)], also [xs.forEach(body)]. *)
Fixpoint for_of {A} (xs : list A) (body : A -> M unit) : M unit :=
  match xs with
  | [] => ret tt
  | x :: rest => body x ;; for_of rest body
  end.

Definition log (c : Call) (s : State) : State :=
  mkState (this s) (mongo s) (calls s ++ [c]).

Definition get_this : M Manager := fun s => (Returned (this s), s).

Definition with_ran (b : bool) (s : State) : State :=
  mkState (mkManager (migrations (this s)) (tenants (this s)) b)
          (mongo s) (calls s).

(** [this.ran = true]. *)
Definition set_ran (b : bool) : M unit :=
  fun s => (Returned tt, with_ran b s).

(** ** The record store *)

Definition append_records (new : list MigrationRecord) (db : Db) : Db :=
  mkDb (records db ++ new) (data db).

(** The four operations below are durable and atomic per call; a store
    that is unavailable is outside what the manager handles, so they are
    total here. *)

(** Modelled from the spec: [retrieveAllMigrationRecords] answers the
    stored records in insertion order. *)
Definition retrieveAllMigrationRecords : M (list MigrationRecord) :=
  fun s => (Returned (records (mongo s)), log RetrieveAll s).

(** Modelled from the spec: [createMigrationRecord] appends a
    [completed] record. *)
Definition createMigrationRecord (v : N) : M unit :=
  fun s =>
    (Returned tt,
     mkState (this s) (append_records [mkRecord v completed] (mongo s))
             (calls s ++ [CreateRecord v])).

(** Modelled from the spec: [createFailedMigrationRecord] appends a
    [failed] record. *)
Definition createFailedMigrationRecord (v : N) : M unit :=
  fun s =>
    (Returned tt,
     mkState (this s) (append_records [mkRecord v failed] (mongo s))
             (calls s ++ [CreateFailedRecord v])).

(** Modelled from the spec: [createSkippedMigrationRecords] appends one
    [skipped] record per version it is given, in a single call. *)
Definition createSkippedMigrationRecords (vs : list N) : M unit :=
  fun s =>
    (Returned tt,
     mkState (this s)
             (append_records (map (fun v => mkRecord v skipped) vs) (mongo s))
             (calls s ++ [CreateSkippedRecords vs])).

(** ** Hooks and the tenant source *)

(** [await migration.up(mongo, tenant.id)] and its siblings. *)
Definition invoke (kind : HookKind) (migration : Migration) (hook : Hook)
           (tenantID : string) : M unit :=
  fun s =>
    let (db, thrown) := hook (mongo s) tenantID in
    (match thrown with
     | None => Returned tt
     | Some err => Threw err
     end,
     mkState (this s) db
             (calls s ++ [Invoke kind (version migration) tenantID thrown])).

(** Starting [for await (const tenant of this.tenants)]. *)
Definition iterateTenants : M (list Tenant) :=
  fun s =>
    let yielded := tenants (this s) (mongo s) in
    (Returned yielded, log (IterateTenants yielded) s).

(** ** The constructor *)

(** The comparator handed to [sort] (lines 69-79). *)
Definition compareMigrations (a b : Migration) : Z :=
  if (version a <? version b)%N then (-1)%Z
  else if (version b <? version a)%N then 1%Z
  else 0%Z.

(** [new Manager(tenants)].  The loop over the migrations folder pushes
    one unit per accepted file; [discovered] is the array it has built
    when the sort runs. *)
Definition newManager (tenantCache : TenantCache)
           (discovered : list Migration) : Manager :=
  mkManager (array_sort compareMigrations discovered) tenantCache false.

(** ** [pending] and [currentMigration] *)

Definition Boolean {A} (x : option A) : bool :=
  match x with Some _ => true | None => false end.

Definition pending : M (list Migration) :=
  records <- retrieveAllMigrationRecords ;;
  for_of records (fun record =>
    if record_failed record
    then throw (FailedMigrationDetectedError record)
    else ret tt) ;;
  this <- get_this ;;
  ret (filter
         (fun migration =>
            negb (Boolean (find (fun record =>
                                   (version migration =? record_version record)%N)
                                records)))
         (migrations this)).

Definition currentMigration : M (option MigrationRecord) :=
  records <- retrieveAllMigrationRecords ;;
  ret (if (0 <? List.length records)%nat
       then nth_error records (List.length records - 1)
       else None).

(** ** [skipPendingMigrations] *)

Definition skipPendingMigrations : M unit :=
  this <- get_this ;;
  if ran this then throw alreadyExecuted
  else
    set_ran true ;;
    current <- currentMigration ;;
    match current with
    | Some _ => throw skipOnNonEmptyStore
    | None =>
        this <- get_this ;;
        createSkippedMigrationRecords (map version (migrations this))
    end.

(** ** [executePendingMigrations] *)

(** The [try] block: [up], then [test] when the unit has one. *)
Definition try_block (migration : Migration) (tenant : Tenant) : M unit :=
  invoke Up migration (up migration) (tenant_id tenant) ;;
  match test migration with
  | Some test => invoke Test migration test (tenant_id tenant)
  | None => ret tt
  end.

(** The [catch (err)] block: [down] when the unit has one, then the failed
    record, then [throw err]. *)
Definition catch_block (migration : Migration) (tenant : Tenant)
           (err : Thrown) : M unit :=
  match down migration with
  | Some down => invoke Down migration down (tenant_id tenant)
  | None => ret tt
  end ;;
  createFailedMigrationRecord (version migration) ;;
  throw err.

Definition run_tenant (migration : Migration) (tenant : Tenant) : M unit :=
  try_catch (try_block migration tenant) (catch_block migration tenant).

Definition run_migration (migration : Migration) : M unit :=
  yielded <- iterateTenants ;;
  for_of yielded (run_tenant migration) ;;
  createMigrationRecord (version migration).

Definition executePendingMigrations : M unit :=
  this <- get_this ;;
  if ran this then throw alreadyExecuted
  else
    set_ran true ;;
    _ <- currentMigration ;;
    pending <- pending ;;
    if (List.length pending =? 0)%nat then ret tt
    else
      for_of pending run_migration ;;
      _ <- currentMigration ;;
      ret tt.

End Engine.

Arguments mkDb {Data} records data.
Arguments Threw {A} e.

Notation "x <- m ;; k" := (bind m (fun x => k))
  (at level 61, m at next level, right associativity).
Notation "m ;; k" := (bind m (fun _ => k))
  (at level 61, right associativity).

(** ** Vocabulary of the specification *)

(** [l] is a subsequence of [l']: some elements dropped, order kept. *)
Inductive subsequence {A : Type} : list A -> list A -> Prop :=
| subsequence_nil : subsequence [] []
| subsequence_keep a l l' : subsequence l l' -> subsequence (a :: l) (a :: l')
| subsequence_drop a l l' : subsequence l l' -> subsequence l (a :: l').

(** Versions of the completed records written, in the order of writing. *)
Fixpoint completed_versions (l : list Call) : list N :=
  match l with
  | [] => []
  | CreateRecord v :: rest => v :: completed_versions rest
  | _ :: rest => completed_versions rest
  end.

(** The two public entry points of a manager. *)
Inductive EntryPoint : Type := SkipPending | ExecutePending.

Section Vocabulary.

Variable Data : Type.

Definition enter (e : EntryPoint) : M Data unit :=
  match e with
  | SkipPending => @skipPendingMigrations Data
  | ExecutePending => @executePendingMigrations Data
  end.

(** A freshly constructed manager facing database [db], nothing logged. *)
Definition fresh (tenantCache : TenantCache Data)
           (discovered : list (Migration Data)) (db : Db Data) : State Data :=
  mkState (newManager tenantCache discovered) db [].

(** Set difference by version, in the words of the specification: the
    discovered units whose version no stored record carries. *)
Definition unrecorded (stored : list MigrationRecord)
           (discovered : list (Migration Data)) : list (Migration Data) :=
  filter (fun m => negb (existsb (N.eqb (version m))
                                 (map record_version stored)))
         discovered.

Definition ascending (l : list (Migration Data)) : Prop :=
  StronglySorted (fun a b => (version a <= version b)%N) l.

(** What the log shows for a tenant whose [up] (and [test]) returned. *)
Definition ok_calls (m : Migration Data) (t : Tenant) : list Call :=
  Invoke Up (version m) (tenant_id t) None ::
  match test m with
  | Some _ => [Invoke Test (version m) (tenant_id t) None]
  | None => []
  end.

(** What precedes the throwing hook inside the [try] block: nothing when
    [up] throws, the returned [up] when [test] throws. *)
Inductive try_log (m : Migration Data) (tenantID : string) :
  list Call -> HookKind -> Prop :=
| try_up : try_log m tenantID [] Up
| try_test h :
    test m = Some h ->
    try_log m tenantID [Invoke Up (version m) tenantID None] Test.

(** What follows the throwing hook, and what the run throws in the end:
    the three ways through the [catch] block. *)
Inductive catch_log (m : Migration Data) (tenantID : string) (err : Thrown) :
  list Call -> Thrown -> Prop :=
| catch_no_down :
    down m = None ->
    catch_log m tenantID err [CreateFailedRecord (version m)] err
| catch_down_returned d :
    down m = Some d ->
    catch_log m tenantID err
              [Invoke Down (version m) tenantID None;
               CreateFailedRecord (version m)] err
| catch_down_threw d err' :
    down m = Some d ->
    catch_log m tenantID err
              [Invoke Down (version m) tenantID (Some err')] err'.

(** The log of the loop over the pending migrations, with its
    completion. *)
Inductive run_log : list (Migration Data) -> Completion unit -> list Call -> Prop :=
| run_nil : run_log [] (Returned tt) []
| run_completed m ms ts out l :
    run_log ms out l ->
    run_log (m :: ms) out
            (IterateTenants ts :: flat_map (ok_calls m) ts
               ++ CreateRecord (version m) :: l)
| run_aborted m ms ts1 t ts2 before kind err after err' :
    try_log m (tenant_id t) before kind ->
    catch_log m (tenant_id t) err after err' ->
    run_log (m :: ms) (Threw err')
            (IterateTenants (ts1 ++ t :: ts2) :: flat_map (ok_calls m) ts1
               ++ before
               ++ Invoke kind (version m) (tenant_id t) (Some err) :: after).

(** The log of a whole [executePendingMigrations] on a fresh manager
    whose pending list is [pend]. *)
Inductive execute_log (pend : list (Migration Data)) :
  Completion unit -> list Call -> Prop :=
| execute_nothing :
    pend = [] -> execute_log pend (Returned tt) [RetrieveAll; RetrieveAll]
| execute_all l :
    pend <> [] -> run_log pend (Returned tt) l ->
    execute_log pend (Returned tt)
                (RetrieveAll :: RetrieveAll :: l ++ [RetrieveAll])
| execute_aborted l err :
    run_log pend (Threw err) l ->
    execute_log pend (Threw err) (RetrieveAll :: RetrieveAll :: l).

(** A call that belongs to the block of migration [m]: a hook of [m], or
    anything that is not a completed record. *)
Definition block_call (m : Migration Data) (c : Call) : Prop :=
  match c with
  | Invoke _ v _ _ => v = version m
  | CreateRecord _ => False
  | _ => True
  end.


(** A throwing [up] or [test]. *)
Definition is_thrown_try (c : Call) : bool :=
  match c with
  | Invoke Up _ _ (Some _) | Invoke Test _ _ (Some _) => true
  | _ => false
  end.






(** The claim about the failed record as the specification states it, for
    the first run of a fresh manager: after every throwing [up] or [test]
    the failed record of that version is written and the run throws the
    original error. *)
Definition failure_recorded_claim (tenantCache : TenantCache Data)
           (discovered : list (Migration Data)) (db : Db Data) : Prop :=
  let run := executePendingMigrations (fresh tenantCache discovered db) in
  forall pre post kind v tenantID err,
    kind <> Down ->
    calls (snd run) = pre ++ Invoke kind v tenantID (Some err) :: post ->
    In (CreateFailedRecord v) post /\ fst run = Threw err.

(** The three ways the run can end after [up] or [test] of a unit of
    version [v] threw [err] for tenant [tenantID]: without [down], with a
    [down] that returned, with a [down] that threw. *)
Definition catch_outcome (pend : list (Migration Data)) (post : list Call)
           (v : N) (tenantID : string) (err : Thrown)
           (out : Completion unit) : Prop :=
  exists m,
    In m pend /\ version m = v
    /\ ((down m = None
         /\ post = [CreateFailedRecord v]
         /\ out = Threw err)
        \/ (exists d,
              down m = Some d
              /\ post = [Invoke Down v tenantID None; CreateFailedRecord v]
              /\ out = Threw err)
        \/ (exists d err',
              down m = Some d
              /\ post = [Invoke Down v tenantID (Some err')]
              /\ out = Threw err')).

End Vocabulary.

(** ** Scenarios *)

(** Concrete units, tenants and stores; the rest of the database is a
    counter that every returning hook increments. *)
Module Scenario.

Definition returns : Hook nat :=
  fun db _ => (mkDb (records db) (S (data db)), None).

Definition throws (message : string) : Hook nat :=
  fun db _ => (db, Some (Error message)).

Definition t1 : Tenant := mkTenant "t1".
Definition t2 : Tenant := mkTenant "t2".

Definition two_tenants : TenantCache nat := fun _ => [t1; t2].
Definition no_tenants : TenantCache nat := fun _ => [].

Definition empty_store : Db nat := mkDb [] 0.
Definition one_completed : Db nat := mkDb [mkRecord 1 completed] 0.
Definition one_failed : Db nat :=
  mkDb [mkRecord 1 completed; mkRecord 2 failed] 0.

Definition create_users : Migration nat :=
  mkMigration 1 "create_users" returns None None.

(** [up] throws, [down] returns. *)
Definition broken_index : Migration nat :=
  mkMigration 2 "broken_index" (throws "up failed") None (Some returns).


(** [test] throws and so does [down]. *)
Definition broken_test : Migration nat :=
  mkMigration 2 "broken_test" returns (Some (throws "test failed"))
              (Some (throws "down failed")).

Definition add_stories : Migration nat :=
  mkMigration 3 "add_stories" returns (Some returns) None.





End Scenario.

(** ** What a run does to the store and what its log stands for *)

(** The records a stretch of the log says were appended. *)
Fixpoint written (l : list Call) : list MigrationRecord :=
  match l with
  | [] => []
  | CreateRecord v :: rest => mkRecord v completed :: written rest
  | CreateFailedRecord v :: rest => mkRecord v failed :: written rest
  | CreateSkippedRecords vs :: rest =>
      map (fun v => mkRecord v skipped) vs ++ written rest
  | _ :: rest => written rest
  end.

Definition is_down (c : Call) : bool :=
  match c with Invoke Down _ _ _ => true | _ => false end.

Section Effects.

Variable Data : Type.

(** The method of a unit behind each kind of hook. *)
Definition hook_of (kind : HookKind) (m : Migration Data) : option (Hook Data) :=
  match kind with
  | Up => Some (up m)
  | Test => test m
  | Down => down m
  end.

(** A hook that leaves the migration records alone, whatever else it does
    to the database. *)
Definition keeps_records (h : Hook Data) : Prop :=
  forall db tenantID, records (fst (h db tenantID)) = records db.

Definition hooks_keep_records (m : Migration Data) : Prop :=
  forall kind h, hook_of kind m = Some h -> keeps_records h.

(** A unit none of whose hooks ever throws. *)
Definition never_throws (m : Migration Data) : Prop :=
  forall kind h db tenantID, hook_of kind m = Some h -> snd (h db tenantID) = None.

(** A logged call is backed by the collaborators: a hook invocation by a
    hook of one of the units [ms] that, on some database, ended the way the
    log says; an iteration of the tenant source by what the source [tc]
    yields on some database. *)
Definition backed (ms : list (Migration Data)) (tc : TenantCache Data)
           (c : Call) : Prop :=
  match c with
  | Invoke kind v tenantID thrown =>
      exists m h db,
        In m ms /\ version m = v /\ hook_of kind m = Some h
        /\ snd (h db tenantID) = thrown
  | IterateTenants yielded => exists db, tc db = yielded
  | _ => True
  end.

(** The state after the call is the state before it, with [new] logged
    and the records [new] stands for appended. *)
Definition extends_store (s s' : State Data) : Prop :=
  exists new,
    calls s' = calls s ++ new
    /\ records (mongo s') = records (mongo s) ++ written new.

(** The state after the call is the state before it, with [new] logged,
    every call in [new] backed by the units [ms] and the tenant source of
    the instance. *)
Definition extends_log (ms : list (Migration Data)) (s s' : State Data) : Prop :=
  tenants (this s') = tenants (this s)
  /\ exists new,
      calls s' = calls s ++ new /\ Forall (backed ms (tenants (this s))) new.

(** A computation all of whose runs relate the state they start from to
    the state they end in. *)
Definition keeps {A : Type} (R : State Data -> State Data -> Prop)
           (m : M Data A) : Prop :=
  forall s, R s (snd (m s)).

(** The log of a run in which every pending unit met the same tenants
    [ts] and every hook returned. *)
Definition full_log (ts : list Tenant) (pend : list (Migration Data)) : list Call :=
  flat_map (fun m => IterateTenants ts :: flat_map (ok_calls m) ts
                       ++ [CreateRecord (version m)])
           pend.

End Effects.

(** ** Discovery of the migration files *)

(** File names are strings of code units; the ones below 256 are covered
    here, which includes every name the pattern is written for. *)
Definition code (c : ascii) : N := N_of_ascii c.

(** [\d] *)
Definition is_digit (c : ascii) : bool :=
  (48 <=? code c)%N && (code c <=? 57)%N.

(** [\s], restricted to code units below 256: tab, line feed, vertical
    tab, form feed, carriage return, space and no-break space. *)
Definition is_space (c : ascii) : bool :=
  existsb (N.eqb (code c)) [9; 10; 11; 12; 13; 32; 160]%N.

(** [[\S_]] *)
Definition is_name_char (c : ascii) : bool :=
  negb (is_space c) || (code c =? 95)%N.

(** The pieces the pattern is made of: one character of a class, or a
    greedy non-empty run of characters of a class. *)
Inductive Item : Type :=
| One (p : ascii -> bool)
| Many1 (p : ascii -> bool).

(** A greedy run that has already consumed [acc]: take one more character
    if the class allows it and the rest of the pattern then matches,
    otherwise stop here and hand over to the rest of the pattern [k]. *)
Fixpoint greedy (p : ascii -> bool)
         (k : list ascii -> option (list (list ascii)))
         (s : list ascii) (acc : list ascii) : option (list (list ascii)) :=
  match s with
  | c :: rest =>
      if p c then
        match greedy p k rest (acc ++ [c]) with
        | Some parts => Some parts
        | None => option_map (cons acc) (k s)
        end
      else option_map (cons acc) (k s)
  | [] => option_map (cons acc) (k s)
  end.

(** Backtracking match of a sequence of items anchored at both ends; the
    answer lists what each item consumed. *)
Fixpoint match_items (items : list Item) (s : list ascii) :
  option (list (list ascii)) :=
  match items with
  | [] => match s with [] => Some [] | _ :: _ => None end
  | One p :: items' =>
      match s with
      | c :: rest =>
          if p c then option_map (cons [c]) (match_items items' rest) else None
      | [] => None
      end
  | Many1 p :: items' =>
      match s with
      | c :: rest => if p c then greedy p (match_items items') rest [c] else None
      | [] => None
      end
  end.

(** What an item may consume. *)
Definition conforms (item : Item) (part : list ascii) : Prop :=
  match item with
  | One p => exists c, part = [c] /\ p c = true
  | Many1 p => part <> [] /\ forallb p part = true
  end.

(** [/^(\d+)_([\S_]+)\.[tj]s$/] *)
Definition fileNamePattern : list Item :=
  [Many1 is_digit;
   One (Ascii.eqb "_");
   Many1 is_name_char;
   One (Ascii.eqb ".");
   One (fun c => Ascii.eqb c "t" || Ascii.eqb c "j");
   One (Ascii.eqb "s")].

(** [fileNamePattern.exec(fileName)], which is what [fileName.match] gives
    for a pattern without the global flag: the whole match followed by the
    two captures, or nothing. *)
Definition pattern_exec (fileName : string) : option (list string) :=
  match match_items fileNamePattern (list_ascii_of_string fileName) with
  | Some parts =>
      Some [fileName;
            string_of_list_ascii (nth 0 parts []);
            string_of_list_ascii (nth 2 parts [])]
  | None => None
  end.

(** [fileNamePattern.test(fileName)] *)
Definition pattern_test (fileName : string) : bool :=
  match pattern_exec fileName with Some _ => true | None => false end.

(** [fileName.endsWith(suffix)] *)
Definition endsWith (fileName suffix : string) : bool :=
  (String.length suffix <=? String.length fileName)%nat
  && String.eqb (substring (String.length fileName - String.length suffix)
                           (String.length suffix) fileName)
                suffix.

(** The value of the leading run of digits of [s], as a mathematical
    integer. *)
Fixpoint parse_digits (acc : N) (s : list ascii) : N :=
  match s with
  | c :: rest =>
      if is_digit c then parse_digits (10 * acc + (code c - 48)) rest else acc
  | [] => acc
  end.

(** The numbers [parseInt] can answer on a run of digits: an integer that
    a double holds, or [Infinity]. *)
Inductive JsNumber : Type :=
| Finite (value : N)
| Infinity.

(** The Number value of a non-negative integer: the nearest double, ties
    to the even significand of 53 bits, and [Infinity] from 2^1024 - 2^970
    on. *)
Definition to_number (n : N) : JsNumber :=
  let bits := N.size n in
  if (bits <=? 53)%N then Finite n
  else
    let shift := (bits - 53)%N in
    let q := N.shiftr n shift in
    let r := (n - N.shiftl q shift)%N in
    let half := N.shiftl 1 (shift - 1) in
    let q' :=
      if (r <? half)%N then q
      else if (half <? r)%N then (q + 1)%N
      else if N.even q then q else (q + 1)%N in
    let rounded := N.shiftl q' shift in
    if (rounded <? 2 ^ 1024)%N then Finite rounded else Infinity.

(** [parseInt(s, 10)] on a string that starts with a digit: the Number
    value of the integer its leading run of digits spells. *)
Definition parseInt (s : string) : JsNumber :=
  to_number (parse_digits 0 (list_ascii_of_string s)).

(** What the constructor does besides building the list: the warnings it
    logs and the files it loads. *)
Inductive DiscoveryEvent : Type :=
| Warned (fileName : string)
| Required (filePath : string).

Section Discovery.

Variable Data : Type.

(** What [new m.default(version, name)] produces: an instance of
    [Migration] or some other value. *)
Inductive Exported : Type :=
| MigrationInstance (migration : Migration Data)
| OtherValue.

(** A loaded module, as far as the constructor uses it: its default export
    called as a constructor with the version and the name. *)
Definition LoadedModule : Type := JsNumber -> string -> Completion Exported.

(** [path.join(__dirname, "migrations", fileName)] *)
Variable filePathOf : string -> string.

(** [require(filePath)] *)
Variable require : string -> Completion LoadedModule.

Definition notAMigration (filePath : string) : Thrown :=
  Error ("migration at " ++ filePath ++ " did not export a Migration")%string.

Definition invalidFormat : Thrown := Error "fileName format is invalid".

(** The loop over [fileNames] (lines 31-66), from the array and the log
    built so far. *)
Fixpoint scan (fileNames : list string) (migrations : list (Migration Data))
         (events : list DiscoveryEvent) :
  Completion (list (Migration Data)) * list DiscoveryEvent :=
  match fileNames with
  | [] => (Returned migrations, events)
  | fileName :: rest =>
      if negb (pattern_test fileName) then
        if endsWith fileName ".map" then scan rest migrations events
        else scan rest migrations (events ++ [Warned fileName])
      else
        let filePath := filePathOf fileName in
        let events := events ++ [Required filePath] in
        match require filePath with
        | Threw e => (Threw e, events)
        | Returned m =>
            match pattern_exec fileName with
            | None => (Threw invalidFormat, events)
            | Some matches =>
                if negb (List.length matches =? 3)%nat
                then (Threw invalidFormat, events)
                else
                  let version := parseInt (nth 1 matches ""%string) in
                  match m version (nth 2 matches ""%string) with
                  | Threw e => (Threw e, events)
                  | Returned (MigrationInstance migration) =>
                      scan rest (migrations ++ [migration]) events
                  | Returned OtherValue => (Threw (notAMigration filePath), events)
                  end
            end
        end
  end.

(** [new Manager(tenants)] with the directory listing [fileNames]: the
    loop, then the sort. *)
Definition constructManager (tenantCache : TenantCache Data)
           (fileNames : list string) :
  Completion (Manager Data) * list DiscoveryEvent :=
  match scan fileNames [] [] with
  | (Returned discovered, events) =>
      (Returned (newManager tenantCache discovered), events)
  | (Threw e, events) => (Threw e, events)
  end.

(** The version and the name the constructor takes from an accepted file
    name. *)
Definition version_of (fileName : string) : JsNumber :=
  match pattern_exec fileName with
  | Some matches => parseInt (nth 1 matches ""%string)
  | None => Finite 0
  end.

Definition name_of (fileName : string) : string :=
  match pattern_exec fileName with
  | Some matches => nth 2 matches ""%string
  | None => ""%string
  end.

(** What the constructor logs when it gets through the whole listing. *)
Definition discovery_log (fileNames : list string) : list DiscoveryEvent :=
  flat_map (fun fileName =>
              if pattern_test fileName then [Required (filePathOf fileName)]
              else if endsWith fileName ".map" then []
              else [Warned fileName])
           fileNames.

(** The file [fileName] loads and its default export, called with the
    version and the name taken from the file name, builds [migration]. *)
Definition loads (fileName : string) (migration : Migration Data) : Prop :=
  exists m,
    require (filePathOf fileName) = Returned m
    /\ m (version_of fileName) (name_of fileName)
       = Returned (MigrationInstance migration).

(** Why the constructor can throw [e] at the file [fileName]. *)
Definition fails_with (fileName : string) (e : Thrown) : Prop :=
  require (filePathOf fileName) = Threw e
  \/ (exists m,
        require (filePathOf fileName) = Returned m
        /\ (m (version_of fileName) (name_of fileName) = Threw e
            \/ (m (version_of fileName) (name_of fileName) = Returned OtherValue
                /\ e = notAMigration (filePathOf fileName)))).

End Discovery.

(** A directory listing and two ways of loading it. *)
Module Listing.

Definition filePathOf (fileName : string) : string :=
  ("/srv/migrations/" ++ fileName)%string.

Definition listing : list string :=
  ["1554318843000_add_index.ts"; "README.md";
   "1554318843000_add_index.js.map"; "2_create_users.js"]%string.

(** A module whose default export builds a unit with the version and the
    name it is given, and refuses a version that is not finite. *)
Definition unit_module : LoadedModule nat :=
  fun version name =>
    match version with
    | Finite v =>
        Returned (MigrationInstance (mkMigration v name Scenario.returns None None))
    | Infinity => Threw (Error "version is not finite")
    end.


Definition require_units (filePath : string) : Completion (LoadedModule nat) :=
  Returned unit_module.


End Listing.

(** * Properties *)

(** ** The sort of the constructor *)

Section SortFacts.

Variable A : Type.
Variable compareFn : A -> A -> Z.

Lemma insert_sorted_permutation (a : A) (l : list A) :
  Permutation (a :: l) (insert_sorted compareFn a l).
Proof.
  induction l as [|b rest IH]; simpl.
  - apply Permutation_refl.
  - destruct (compareFn a b <=? 0)%Z.
    + apply Permutation_refl.
    + eapply perm_trans; [apply perm_swap|].
      now apply perm_skip.
Qed.

Lemma array_sort_permutation (l : list A) :
  Permutation l (array_sort compareFn l).
Proof.
  induction l as [|a rest IH]; simpl.
  - constructor.
  - eapply perm_trans; [apply perm_skip, IH|].
    apply insert_sorted_permutation.
Qed.

(** Sortedness, for any comparator that reflects a total preorder. *)
Variable le : A -> A -> Prop.
Hypothesis le_trans : forall a b c, le a b -> le b c -> le a c.
Hypothesis compare_le : forall a b, (compareFn a b <=? 0)%Z = true -> le a b.
Hypothesis compare_gt : forall a b, (compareFn a b <=? 0)%Z = false -> le b a.

Lemma insert_sorted_sorted (a : A) (l : list A) :
  StronglySorted le l -> StronglySorted le (insert_sorted compareFn a l).
Proof.
  induction 1 as [|b rest Hsorted IH Hall]; simpl.
  - repeat constructor.
  - destruct (compareFn a b <=? 0)%Z eqn:Hcmp.
    + constructor; [now constructor|].
      constructor; [now apply compare_le|].
      eapply Forall_impl; [|exact Hall].
      intros c Hbc. eapply le_trans; [|exact Hbc]. now apply compare_le.
    + constructor; [exact IH|].
      eapply Permutation_Forall; [apply insert_sorted_permutation|].
      constructor; [now apply compare_gt | exact Hall].
Qed.

Lemma array_sort_sorted (l : list A) :
  StronglySorted le (array_sort compareFn l).
Proof.
  induction l as [|a rest IH]; simpl.
  - constructor.
  - now apply insert_sorted_sorted.
Qed.

End SortFacts.

Section Properties.

Variable Data : Type.

Lemma compareMigrations_cases (a b : Migration Data) :
  ((version a < version b)%N /\ compareMigrations a b = (-1)%Z)
  \/ (version a = version b /\ compareMigrations a b = 0%Z)
  \/ ((version b < version a)%N /\ compareMigrations a b = 1%Z).
Proof.
  unfold compareMigrations.
  destruct (N.ltb_spec (version a) (version b)) as [Hlt|Hge].
  - left. split; [exact Hlt | reflexivity].
  - destruct (N.ltb_spec (version b) (version a)) as [Hgt|Hle].
    + right; right. split; [exact Hgt | reflexivity].
    + right; left. split; [lia | reflexivity].
Qed.

Lemma newManager_ascending (tenantCache : TenantCache Data)
      (discovered : list (Migration Data)) :
  ascending (migrations (newManager tenantCache discovered)).
Proof.
  unfold ascending, newManager; simpl.
  apply array_sort_sorted.
  - intros a b c Hab Hbc. lia.
  - intros a b Hcmp.
    destruct (compareMigrations_cases a b) as [[H E]|[[H E]|[H E]]];
      rewrite E in Hcmp; simpl in Hcmp; try discriminate; lia.
  - intros a b Hcmp.
    destruct (compareMigrations_cases a b) as [[H E]|[[H E]|[H E]]];
      rewrite E in Hcmp; simpl in Hcmp; try discriminate; lia.
Qed.

(** C8: the constructor leaves the discovered units sorted ascending by
    version under a comparator that answers -1, 0 or 1 as the first
    version is smaller than, equal to or greater than the second; units
    with equal versions are neither rejected nor merged (the sorted list
    is a permutation of the discovered one), so the result is always a
    totally ordered list. *)
Theorem constructor_sorts_by_version
        (tenantCache : TenantCache Data) (discovered : list (Migration Data)) :
  ascending (migrations (newManager tenantCache discovered))
  /\ Permutation discovered (migrations (newManager tenantCache discovered))
  /\ (forall a b : Migration Data,
         (compareMigrations a b = 0%Z <-> version a = version b)
         /\ (compareMigrations a b = (-1)%Z <-> (version a < version b)%N)
         /\ (compareMigrations a b = 1%Z <-> (version b < version a)%N)).
Proof.
  split; [|split].
  - apply newManager_ascending.
  - apply array_sort_permutation.
  - intros a b.
    destruct (compareMigrations_cases a b) as [[H E]|[[H E]|[H E]]];
      rewrite E; repeat split; intros; try discriminate; try lia.
Qed.

(** ** Unfolding the methods *)

Lemma for_of_cons {A} (x : A) (rest : list A) (body : A -> M Data unit)
      (s : State Data) :
  for_of (x :: rest) body s =
  match body x s with
  | (Returned _, s') => for_of rest body s'
  | (Threw e, s') => (Threw e, s')
  end.
Proof. reflexivity. Qed.

Lemma failed_check_eq (stored : list MigrationRecord) (s : State Data) :
  for_of stored
         (fun record =>
            if record_failed record
            then throw (FailedMigrationDetectedError record)
            else ret tt) s =
  match find record_failed stored with
  | Some record => (Threw (FailedMigrationDetectedError record), s)
  | None => (Returned tt, s)
  end.
Proof.
  induction stored as [|record rest IH]; [reflexivity|].
  rewrite for_of_cons. simpl find.
  destruct (record_failed record); [reflexivity|].
  unfold ret at 1. exact IH.
Qed.

Lemma Boolean_find {A} (f : A -> bool) (l : list A) :
  Boolean (find f l) = existsb f l.
Proof.
  induction l as [|a rest IH]; [reflexivity|].
  simpl. destruct (f a); [reflexivity | exact IH].
Qed.

Lemma filter_is_unrecorded (stored : list MigrationRecord)
      (discovered : list (Migration Data)) :
  filter (fun migration =>
            negb (Boolean (find (fun record =>
                                   (version migration =? record_version record)%N)
                                stored)))
         discovered
  = unrecorded stored discovered.
Proof.
  unfold unrecorded. apply filter_ext. intros m.
  rewrite Boolean_find. f_equal.
  induction stored as [|r rest IH]; [reflexivity|].
  simpl. now rewrite IH.
Qed.

Lemma pending_eq (s : State Data) :
  pending s =
  match find record_failed (records (mongo s)) with
  | Some record => (Threw (FailedMigrationDetectedError record), log RetrieveAll s)
  | None => (Returned (unrecorded (records (mongo s)) (migrations (this s))),
             log RetrieveAll s)
  end.
Proof.
  unfold pending, bind at 1, retrieveAllMigrationRecords.
  unfold bind at 1. rewrite failed_check_eq.
  destruct (find record_failed (records (mongo s))); [reflexivity|].
  unfold bind, get_this, ret. simpl.
  now rewrite filter_is_unrecorded.
Qed.

Lemma currentMigration_eq (s : State Data) :
  currentMigration s =
  (Returned (if (0 <? List.length (records (mongo s)))%nat
             then nth_error (records (mongo s))
                            (List.length (records (mongo s)) - 1)
             else None),
   log RetrieveAll s).
Proof. reflexivity. Qed.

Lemma currentMigration_empty (s : State Data) :
  records (mongo s) = [] ->
  currentMigration s = (Returned None, log RetrieveAll s).
Proof. intros H. rewrite currentMigration_eq, H. reflexivity. Qed.

Lemma currentMigration_nonempty (s : State Data) :
  records (mongo s) <> [] ->
  exists record,
    In record (records (mongo s))
    /\ currentMigration s = (Returned (Some record), log RetrieveAll s).
Proof.
  intros H. rewrite currentMigration_eq.
  destruct (records (mongo s)) as [|r0 rest] eqn:E; [congruence|].
  destruct (nth_error (r0 :: rest) (List.length (r0 :: rest) - 1)) as [r|] eqn:En.
  - exists r. split; [eapply nth_error_In; exact En | reflexivity].
  - apply nth_error_None in En. simpl in En. lia.
Qed.

Lemma skipPendingMigrations_eq (s : State Data) :
  skipPendingMigrations s =
  if ran (this s) then (Threw alreadyExecuted, s)
  else
    match currentMigration (with_ran true s) with
    | (Returned (Some _), s1) => (Threw skipOnNonEmptyStore, s1)
    | (Returned None, s1) =>
        createSkippedMigrationRecords (map (@version Data) (migrations (this s1))) s1
    | (Threw e, s1) => (Threw e, s1)
    end.
Proof.
  unfold skipPendingMigrations, bind at 1, get_this.
  destruct (ran (this s)); [reflexivity|].
  unfold bind at 1, set_ran. unfold bind at 1.
  destruct (currentMigration (with_ran true s)) as [[[r|]|e] s1]; reflexivity.
Qed.

Lemma executePendingMigrations_eq (s : State Data) :
  executePendingMigrations s =
  if ran (this s) then (Threw alreadyExecuted, s)
  else
    match pending (log RetrieveAll (with_ran true s)) with
    | (Returned pend, s1) =>
        if (List.length pend =? 0)%nat then (Returned tt, s1)
        else
          match for_of pend (@run_migration Data) s1 with
          | (Returned _, s2) => (Returned tt, log RetrieveAll s2)
          | (Threw e, s2) => (Threw e, s2)
          end
    | (Threw e, s1) => (Threw e, s1)
    end.
Proof.
  unfold executePendingMigrations, bind at 1, get_this.
  destruct (ran (this s)); [reflexivity|].
  unfold bind at 1, set_ran. unfold bind at 1. rewrite currentMigration_eq.
  unfold bind at 1.
  destruct (pending (log RetrieveAll (with_ran true s))) as [[pend|e] s1];
    [|reflexivity].
  destruct (List.length pend =? 0)%nat; [reflexivity|].
  unfold bind at 1.
  destruct (for_of pend (@run_migration Data) s1) as [[[]|e] s2]; reflexivity.
Qed.

(** ** The shape of the log *)

Lemma invoke_eq (kind : HookKind) (m : Migration Data) (hook : Hook Data)
      (tenantID : string) (s : State Data) :
  exists db thrown,
    invoke kind m hook tenantID s =
    (match thrown with None => Returned tt | Some err => Threw err end,
     mkState (this s) db
             (calls s ++ [Invoke kind (version m) tenantID thrown])).
Proof.
  unfold invoke. destruct (hook (mongo s) tenantID) as [db thrown].
  now exists db, thrown.
Qed.

Lemma catch_block_cases (m : Migration Data) (t : Tenant) (err : Thrown)
      (s : State Data) :
  exists after err' s',
    catch_block m t err s = (Threw err', s')
    /\ this s' = this s
    /\ catch_log m (tenant_id t) err after err'
    /\ calls s' = calls s ++ after.
Proof.
  unfold catch_block, bind.
  destruct (down m) as [d|] eqn:Hdown.
  - destruct (invoke_eq Down m d (tenant_id t) s) as (db & [err'|] & Hinv);
      rewrite Hinv.
    + eexists _, err', _. split; [reflexivity|]. simpl.
      repeat split. econstructor; exact Hdown.
    + eexists _, err, _. split; [reflexivity|]. simpl.
      split; [reflexivity|]. split; [econstructor; exact Hdown|].
      now rewrite <- app_assoc.
  - eexists _, err, _. split; [reflexivity|]. simpl.
    repeat split. now constructor.
Qed.

Lemma run_tenant_cases (m : Migration Data) (t : Tenant) (s : State Data) :
  (exists s',
      run_tenant m t s = (Returned tt, s')
      /\ this s' = this s
      /\ calls s' = calls s ++ ok_calls m t)
  \/ (exists before kind err after err' s',
         run_tenant m t s = (Threw err', s')
         /\ this s' = this s
         /\ try_log m (tenant_id t) before kind
         /\ catch_log m (tenant_id t) err after err'
         /\ calls s' = calls s ++ before
                       ++ Invoke kind (version m) (tenant_id t) (Some err) :: after).
Proof.
  unfold run_tenant, try_catch, try_block, bind.
  destruct (invoke_eq Up m (up m) (tenant_id t) s) as (db1 & [err|] & Hup);
    rewrite Hup.
  - right.
    match goal with
    | |- context [catch_block m t err ?s0] =>
        destruct (catch_block_cases m t err s0)
          as (after & err' & s' & Hrun & Hthis & Hlog & Hcalls)
    end.
    exists [], Up, err, after, err', s'.
    rewrite Hrun, Hthis, Hcalls. simpl.
    repeat split; [constructor | exact Hlog | now rewrite <- app_assoc].
  - destruct (test m) as [h|] eqn:Htest.
    + match goal with
      | |- context [invoke Test m h (tenant_id t) ?s0] =>
          destruct (invoke_eq Test m h (tenant_id t) s0) as (db2 & [err|] & Hh)
      end; rewrite Hh.
      * right.
        match goal with
        | |- context [catch_block m t err ?s0] =>
            destruct (catch_block_cases m t err s0)
              as (after & err' & s' & Hrun & Hthis & Hlog & Hcalls)
        end.
        exists [Invoke Up (version m) (tenant_id t) None], Test, err, after, err', s'.
        rewrite Hrun, Hthis, Hcalls. simpl.
        repeat split; [econstructor; exact Htest | exact Hlog |].
        now rewrite <- !app_assoc.
      * left. eexists. split; [reflexivity|]. simpl.
        split; [reflexivity|]. unfold ok_calls. rewrite Htest.
        now rewrite <- app_assoc.
    + left. eexists. split; [reflexivity|]. simpl.
      split; [reflexivity|]. unfold ok_calls. now rewrite Htest.
Qed.

Lemma tenants_loop_cases (m : Migration Data) (ts : list Tenant) (s : State Data) :
  (exists s',
      for_of ts (run_tenant m) s = (Returned tt, s')
      /\ this s' = this s
      /\ calls s' = calls s ++ flat_map (ok_calls m) ts)
  \/ (exists ts1 t ts2 before kind err after err' s',
         ts = ts1 ++ t :: ts2
         /\ for_of ts (run_tenant m) s = (Threw err', s')
         /\ this s' = this s
         /\ try_log m (tenant_id t) before kind
         /\ catch_log m (tenant_id t) err after err'
         /\ calls s' = calls s ++ flat_map (ok_calls m) ts1 ++ before
                       ++ Invoke kind (version m) (tenant_id t) (Some err) :: after).
Proof.
  revert s. induction ts as [|t rest IH]; intros s.
  - left. exists s. simpl. rewrite app_nil_r. now repeat split.
  - rewrite for_of_cons.
    destruct (run_tenant_cases m t s)
      as [(s1 & Hrun & Hthis & Hcalls)
         |(before & kind & err & after & err' & s1 & Hrun & Hthis & Htry & Hcatch & Hcalls)];
      rewrite Hrun; cbv beta iota.
    + destruct (IH s1)
        as [(s2 & Hrun2 & Hthis2 & Hcalls2)
           |(ts1 & t' & ts2 & before & kind & err & after & err' & s2
             & Hsplit & Hrun2 & Hthis2 & Htry & Hcatch & Hcalls2)].
      * left. exists s2. rewrite Hrun2, Hthis2, Hcalls2, Hthis, Hcalls. simpl.
        now rewrite <- !app_assoc.
      * right. exists (t :: ts1), t', ts2, before, kind, err, after, err', s2.
        rewrite Hrun2, Hthis2, Hcalls2, Hthis, Hcalls, Hsplit. simpl.
        repeat split; try assumption. now rewrite <- !app_assoc.
    + right. exists [], t, rest, before, kind, err, after, err', s1.
      rewrite Hthis, Hcalls. now repeat split.
Qed.

Lemma migrations_loop_log (pend : list (Migration Data)) (s : State Data) :
  exists out s' l,
    for_of pend (@run_migration Data) s = (out, s')
    /\ this s' = this s
    /\ calls s' = calls s ++ l
    /\ run_log pend out l.
Proof.
  revert s. induction pend as [|m rest IH]; intros s.
  - exists (Returned tt), s, []. simpl. rewrite app_nil_r.
    repeat split. constructor.
  - rewrite for_of_cons. unfold run_migration at 1, bind at 1, iterateTenants.
    unfold bind at 1.
    remember (tenants (this s) (mongo s)) as ts eqn:Hts.
    destruct (tenants_loop_cases m ts (log (IterateTenants ts) s))
      as [(s1 & Hrun & Hthis & Hcalls)
         |(ts1 & t & ts2 & before & kind & err & after & err' & s1
           & Hsplit & Hrun & Hthis & Htry & Hcatch & Hcalls)];
      rewrite Hrun; cbv beta iota.
    + unfold createMigrationRecord.
      match goal with
      | |- context [for_of rest _ ?s0] =>
          destruct (IH s0) as (out & s2 & l & Hrun2 & Hthis2 & Hcalls2 & Hlog)
      end.
      exists out, s2, (IterateTenants ts :: flat_map (ok_calls m) ts
                         ++ CreateRecord (version m) :: l).
      rewrite Hrun2, Hthis2, Hcalls2. simpl. rewrite Hthis, Hcalls. simpl.
      split; [reflexivity|]. split; [reflexivity|]. split; [|now constructor].
      now rewrite <- !app_assoc.
    + exists (Threw err'), s1,
        (IterateTenants ts :: flat_map (ok_calls m) ts1 ++ before
           ++ Invoke kind (version m) (tenant_id t) (Some err) :: after).
      rewrite Hthis, Hcalls. simpl.
      split; [reflexivity|]. split; [reflexivity|].
      split; [now rewrite <- !app_assoc|].
      rewrite Hsplit. now constructor.
Qed.

Lemma execute_log_fresh (s : State Data) :
  ran (this s) = false ->
  find record_failed (records (mongo s)) = None ->
  exists out s' l,
    executePendingMigrations s = (out, s')
    /\ this s' = this (with_ran true s)
    /\ calls s' = calls s ++ l
    /\ execute_log (unrecorded (records (mongo s)) (migrations (this s))) out l.
Proof.
  intros Hran Hfind.
  rewrite executePendingMigrations_eq, Hran, pending_eq. simpl.
  rewrite Hfind.
  remember (unrecorded (records (mongo s)) (migrations (this s))) as pend.
  destruct pend as [|m rest].
  - simpl. eexists _, _, [RetrieveAll; RetrieveAll].
    split; [reflexivity|]. simpl. split; [reflexivity|].
    split; [now rewrite <- app_assoc | now constructor].
  - cbn [List.length Nat.eqb].
    match goal with
    | |- context [for_of (m :: rest) _ ?s0] =>
        destruct (migrations_loop_log (m :: rest) s0)
          as (out & s1 & l & Hrun & Hthis & Hcalls & Hlog)
    end.
    rewrite Hrun. destruct out as [[]|err].
    + eexists _, _, (RetrieveAll :: RetrieveAll :: l ++ [RetrieveAll]).
      split; [reflexivity|]. simpl. rewrite Hthis, Hcalls. simpl.
      split; [reflexivity|].
      split; [now rewrite <- !app_assoc|].
      constructor; [discriminate | exact Hlog].
    + eexists _, _, (RetrieveAll :: RetrieveAll :: l).
      split; [reflexivity|]. rewrite Hthis, Hcalls. simpl.
      split; [reflexivity|].
      split; [now rewrite <- !app_assoc | now constructor].
Qed.

(** Whatever an entry point does, it leaves the instance marked as run
    and its migration list and tenant source untouched. *)
Lemma enter_marks_ran (e : EntryPoint) (s : State Data) :
  this (snd (enter e s)) = this (with_ran true s).
Proof.
  assert (Hsame : ran (this s) = true -> this s = this (with_ran true s)).
  { intros H. destruct s as [[ms tc r] db l]. simpl in *. now subst r. }
  destruct e; simpl.
  - rewrite skipPendingMigrations_eq.
    destruct (ran (this s)) eqn:Hran; [now apply Hsame|].
    rewrite currentMigration_eq.
    destruct (if (0 <? List.length (records (mongo (with_ran true s))))%nat
              then _ else _); reflexivity.
  - rewrite executePendingMigrations_eq.
    destruct (ran (this s)) eqn:Hran; [now apply Hsame|].
    rewrite pending_eq.
    destruct (find record_failed _); [reflexivity|].
    match goal with
    | |- context [for_of ?pend _ ?s0] =>
        destruct (migrations_loop_log pend s0)
          as (out & s1 & l & Hrun & Hthis & _ & _); rewrite Hrun;
        destruct (List.length pend =? 0)%nat; [reflexivity|]
    end.
    destruct out as [[]|err]; simpl; exact Hthis.
Qed.

Lemma enter_when_ran (e : EntryPoint) (s : State Data) :
  ran (this s) = true -> enter e s = (Threw alreadyExecuted, s).
Proof.
  intros Hran. destruct e; simpl.
  - now rewrite skipPendingMigrations_eq, Hran.
  - now rewrite executePendingMigrations_eq, Hran.
Qed.

(** ** The one-shot guard *)

(** C6: whatever the first invocation of an entry point did, and however
    it ended, a second invocation of either entry point on the same
    instance throws the already-executed error and leaves the whole state
    as it found it: no record store read or write, no hook, nothing
    logged. *)
Theorem second_invocation_faults (first second : EntryPoint) (s : State Data) :
  enter second (snd (enter first s))
  = (Threw alreadyExecuted, snd (enter first s)).
Proof.
  apply enter_when_ran. now rewrite enter_marks_ran.
Qed.

(** C10: [skipPendingMigrations] marks the instance as run before it looks
    at the record store.  On a non-empty store the first call throws the
    skip error having read the store once and written nothing, and from
    then on every call of either entry point throws the already-executed
    error and changes nothing. *)
Theorem refused_skip_consumes_instance (s : State Data) :
  ran (this s) = false ->
  records (mongo s) <> [] ->
  exists s1,
    skipPendingMigrations s = (Threw skipOnNonEmptyStore, s1)
    /\ ran (this s1) = true
    /\ mongo s1 = mongo s
    /\ calls s1 = calls s ++ [RetrieveAll]
    /\ forall e, enter e s1 = (Threw alreadyExecuted, s1).
Proof.
  intros Hran Hstore.
  rewrite skipPendingMigrations_eq, Hran.
  destruct (currentMigration_nonempty (with_ran true s) Hstore)
    as (record & _ & Hcur).
  rewrite Hcur. eexists. split; [reflexivity|]. simpl.
  repeat split. intros e. now apply enter_when_ran.
Qed.

(** ** The skip path *)

(** C7: on a manager that has not run yet, [skipPendingMigrations] reads
    the store once; if it is empty it makes one bulk call that appends one
    skipped record per discovered migration, in discovery order, and calls
    no hook; if it is not empty it throws and writes nothing. *)
Theorem skip_marks_all_or_nothing (s : State Data) :
  ran (this s) = false ->
  (records (mongo s) = [] ->
   exists s',
     skipPendingMigrations s = (Returned tt, s')
     /\ calls s' = calls s
                   ++ [RetrieveAll;
                       CreateSkippedRecords (map (@version Data) (migrations (this s)))]
     /\ records (mongo s')
        = map (fun m => mkRecord (version m) skipped) (migrations (this s))
     /\ data (mongo s') = data (mongo s))
  /\ (records (mongo s) <> [] ->
      exists s',
        skipPendingMigrations s = (Threw skipOnNonEmptyStore, s')
        /\ calls s' = calls s ++ [RetrieveAll]
        /\ mongo s' = mongo s).
Proof.
  intros Hran. rewrite skipPendingMigrations_eq, Hran. split; intros Hstore.
  - rewrite (currentMigration_empty (with_ran true s) Hstore).
    eexists. split; [reflexivity|]. simpl. rewrite Hstore. simpl.
    split; [now rewrite <- app_assoc|].
    split; [now rewrite map_map | reflexivity].
  - destruct (currentMigration_nonempty (with_ran true s) Hstore)
      as (record & _ & Hcur).
    rewrite Hcur. eexists. split; [reflexivity|]. now split.
Qed.

(** ** The pending set *)

Lemma subsequence_filter {A} (f : A -> bool) (l : list A) :
  subsequence (filter f l) l.
Proof.
  induction l as [|a rest IH]; simpl.
  - constructor.
  - destruct (f a); now constructor.
Qed.

Lemma subsequence_In {A} (l l' : list A) :
  subsequence l l' -> forall a, In a l -> In a l'.
Proof.
  induction 1 as [|a l l' _ IH|a l l' _ IH]; intros b Hb.
  - exact Hb.
  - destruct Hb as [Hb|Hb]; [now left | right; now apply IH].
  - right; now apply IH.
Qed.

Lemma subsequence_sorted {A} (R : A -> A -> Prop) (l l' : list A) :
  subsequence l l' -> StronglySorted R l' -> StronglySorted R l.
Proof.
  induction 1 as [|a l l' Hsub IH|a l l' Hsub IH]; intros Hsorted.
  - constructor.
  - apply StronglySorted_inv in Hsorted as [Hrest Hall].
    constructor; [now apply IH|].
    rewrite Forall_forall in *. intros b Hb.
    apply Hall. eapply subsequence_In; eassumption.
  - apply StronglySorted_inv in Hsorted as [Hrest _]. now apply IH.
Qed.

Lemma unrecorded_In (stored : list MigrationRecord)
      (discovered : list (Migration Data)) (m : Migration Data) :
  In m (unrecorded stored discovered)
  <-> In m discovered
      /\ forall r, In r stored -> record_version r <> version m.
Proof.
  unfold unrecorded. rewrite filter_In, negb_true_iff.
  split; intros [Hin Hno]; (split; [exact Hin|]).
  - intros r Hr Heq.
    assert (Hex : existsb (N.eqb (version m)) (map record_version stored) = true).
    { apply existsb_exists. exists (record_version r).
      split; [now apply in_map | rewrite Heq; apply N.eqb_refl]. }
    congruence.
  - destruct (existsb (N.eqb (version m)) (map record_version stored)) eqn:Hex;
      [|reflexivity].
    apply existsb_exists in Hex as (v & Hv & Heq).
    apply in_map_iff in Hv as (r & Hr & Hin').
    apply N.eqb_eq in Heq. subst v. exfalso. eapply Hno; eauto.
Qed.

Lemma unrecorded_versions (stored : list MigrationRecord)
      (discovered : list (Migration Data)) :
  map (@version Data) (unrecorded stored discovered)
  = filter (fun v => negb (existsb (N.eqb v) (map record_version stored)))
           (map (@version Data) discovered).
Proof.
  unfold unrecorded. induction discovered as [|m rest IH]; [reflexivity|].
  simpl. destruct (negb _); simpl; now rewrite IH.
Qed.

Lemma find_failed_none (stored : list MigrationRecord) :
  (forall r, In r stored -> record_failed r = false) <->
  find record_failed stored = None.
Proof.
  split.
  - intros H. destruct (find record_failed stored) as [r|] eqn:E; [|reflexivity].
    apply find_some in E as [Hin Hf]. rewrite (H r Hin) in Hf. discriminate.
  - intros H r Hin. eapply find_none in H; eassumption.
Qed.

(** C1: when no stored record is failed, [pending] reads the store once
    and returns the discovered units whose version no stored record
    carries: a unit is returned exactly when it is discovered and
    unrecorded, the versions returned are the discovered versions minus the
    recorded ones, the result is a subsequence of the discovery list, and it
    is ascending whenever the discovery list is. *)
Theorem pending_is_set_difference (s : State Data) :
  (forall r, In r (records (mongo s)) -> record_failed r = false) ->
  exists result,
    pending s = (Returned result, log RetrieveAll s)
    /\ (forall m, In m result <->
                  In m (migrations (this s))
                  /\ forall r, In r (records (mongo s)) ->
                               record_version r <> version m)
    /\ map (@version Data) result
       = filter (fun v => negb (existsb (N.eqb v)
                                        (map record_version (records (mongo s)))))
                (map (@version Data) (migrations (this s)))
    /\ subsequence result (migrations (this s))
    /\ (ascending (migrations (this s)) -> ascending result).
Proof.
  intros Hnone. apply find_failed_none in Hnone.
  exists (unrecorded (records (mongo s)) (migrations (this s))).
  rewrite pending_eq, Hnone.
  split; [reflexivity|].
  split; [intros m; apply unrecorded_In|].
  split; [apply unrecorded_versions|].
  assert (Hsub : subsequence (unrecorded (records (mongo s)) (migrations (this s)))
                             (migrations (this s)))
    by apply subsequence_filter.
  split; [exact Hsub|].
  unfold ascending. now apply subsequence_sorted.
Qed.

(** C2: when some stored record is failed, [pending] throws
    [FailedMigrationDetectedError] carrying the first failed record in
    stored order, having only read the store.  So does
    [executePendingMigrations] on an instance that has not run yet, after
    two reads and nothing else; in every case [executePendingMigrations]
    throws without having called a hook or written a record. *)
Theorem failed_record_stops_everything (s : State Data) :
  (exists r0, In r0 (records (mongo s)) /\ record_failed r0 = true) ->
  exists r,
    find record_failed (records (mongo s)) = Some r
    /\ In r (records (mongo s))
    /\ record_failed r = true
    /\ pending s = (Threw (FailedMigrationDetectedError r), log RetrieveAll s)
    /\ (ran (this s) = false ->
        exists s',
          executePendingMigrations s = (Threw (FailedMigrationDetectedError r), s')
          /\ mongo s' = mongo s
          /\ calls s' = calls s ++ [RetrieveAll; RetrieveAll])
    /\ (exists e s' new,
          executePendingMigrations s = (Threw e, s')
          /\ mongo s' = mongo s
          /\ calls s' = calls s ++ new
          /\ existsb is_hook new = false
          /\ existsb is_write new = false).
Proof.
  intros (r0 & Hin0 & Hfailed0).
  destruct (find record_failed (records (mongo s))) as [r|] eqn:Hfind.
  2:{ eapply find_none in Hfind; [|exact Hin0]. congruence. }
  exists r. split; [reflexivity|].
  destruct (find_some _ _ Hfind) as [Hin Hfailed].
  split; [exact Hin|]. split; [exact Hfailed|].
  split; [now rewrite pending_eq, Hfind|].
  assert (Hexec : ran (this s) = false ->
                  executePendingMigrations s =
                  (Threw (FailedMigrationDetectedError r),
                   log RetrieveAll (log RetrieveAll (with_ran true s)))).
  { intros Hran. rewrite executePendingMigrations_eq, Hran, pending_eq.
    simpl. now rewrite Hfind. }
  split.
  - intros Hran. eexists. split; [now apply Hexec|]. simpl.
    split; [reflexivity | now rewrite <- app_assoc].
  - destruct (ran (this s)) eqn:Hran.
    + exists alreadyExecuted, s, [].
      rewrite executePendingMigrations_eq, Hran, app_nil_r. now repeat split.
    + eexists _, _, [RetrieveAll; RetrieveAll].
      split; [now apply Hexec|]. simpl.
      split; [reflexivity|]. split; [now rewrite <- app_assoc | now split].
Qed.

(** ** A tenant source that yields nothing *)

Lemma no_tenant_loop (pend : list (Migration Data)) (s : State Data) :
  (forall db, tenants (this s) db = []) ->
  for_of pend (@run_migration Data) s =
  (Returned tt,
   mkState (this s)
           (append_records (map (fun m => mkRecord (version m) completed) pend)
                           (mongo s))
           (calls s ++ flat_map (fun m => [IterateTenants [];
                                           CreateRecord (version m)]) pend)).
Proof.
  revert s. induction pend as [|m rest IH]; intros s Hnone.
  - simpl. unfold ret, append_records. rewrite !app_nil_r.
    now destruct s as [mgr [recs d] l].
  - rewrite for_of_cons.
    unfold run_migration at 1, bind, iterateTenants, createMigrationRecord.
    rewrite Hnone. simpl for_of. unfold ret at 1. cbv beta iota.
    rewrite IH by exact Hnone. simpl.
    unfold append_records. simpl. now rewrite <- !app_assoc.
Qed.

Lemma no_tenant_log_facts (pend : list (Migration Data)) :
  existsb is_hook (flat_map (fun m : Migration Data =>
                               [IterateTenants []; CreateRecord (version m)]) pend)
  = false
  /\ completed_versions (flat_map (fun m : Migration Data =>
                                     [IterateTenants []; CreateRecord (version m)])
                                  pend)
     = map (@version Data) pend.
Proof.
  induction pend as [|m rest [IHh IHc]]; [now split|].
  simpl. split; [exact IHh | now rewrite IHc].
Qed.

Lemma completed_versions_app (l l' : list Call) :
  completed_versions (l ++ l') = completed_versions l ++ completed_versions l'.
Proof.
  induction l as [|c rest IH]; [reflexivity|].
  destruct c; simpl; now rewrite ?IH.
Qed.

(** C9: when the tenant source never yields a tenant, a first
    [executePendingMigrations] on a store without failed record returns
    normally, has called no hook, and has written a completed record for
    each pending migration, in pending order, leaving the rest of the
    database alone. *)
Theorem no_tenants_completes_everything (s : State Data) :
  (forall db, tenants (this s) db = []) ->
  ran (this s) = false ->
  (forall r, In r (records (mongo s)) -> record_failed r = false) ->
  exists s' new,
    executePendingMigrations s = (Returned tt, s')
    /\ calls s' = calls s ++ new
    /\ existsb is_hook new = false
    /\ completed_versions new
       = map (@version Data) (unrecorded (records (mongo s)) (migrations (this s)))
    /\ records (mongo s')
       = records (mongo s)
         ++ map (fun m => mkRecord (version m) completed)
                (unrecorded (records (mongo s)) (migrations (this s)))
    /\ data (mongo s') = data (mongo s).
Proof.
  intros Hnone Hran Hok. apply find_failed_none in Hok.
  rewrite executePendingMigrations_eq, Hran, pending_eq. simpl. rewrite Hok.
  remember (unrecorded (records (mongo s)) (migrations (this s))) as pend.
  destruct (no_tenant_log_facts pend) as [Hhooks Hcompleted].
  destruct pend as [|m rest].
  - simpl. eexists _, [RetrieveAll; RetrieveAll].
    split; [reflexivity|]. simpl. rewrite <- app_assoc, app_nil_r.
    now repeat split.
  - cbn [List.length Nat.eqb].
    rewrite no_tenant_loop by (intros db; apply Hnone).
    eexists _, (RetrieveAll :: RetrieveAll
                  :: flat_map (fun m0 : Migration Data =>
                                 [IterateTenants []; CreateRecord (version m0)])
                              (m :: rest) ++ [RetrieveAll]).
    split; [reflexivity|].
    split; [simpl; now rewrite <- !app_assoc|].
    split.
    { cbn [existsb is_hook orb]. rewrite existsb_app, Hhooks. reflexivity. }
    split.
    { cbn [completed_versions]. rewrite completed_versions_app, Hcompleted.
      simpl. now rewrite app_nil_r. }
    now split.
Qed.

(** ** Finding a call in the log *)

Lemma app_cons_split {A} (l1 l2 pre post : list A) (x y : A) :
  l1 ++ x :: l2 = pre ++ y :: post ->
  (pre = l1 /\ x = y /\ post = l2)
  \/ (exists mid, l1 = pre ++ y :: mid /\ post = mid ++ x :: l2)
  \/ (exists mid, pre = l1 ++ x :: mid /\ l2 = mid ++ y :: post).
Proof.
  revert pre. induction l1 as [|a rest IH]; intros pre Heq.
  - destruct pre as [|b pre']; simpl in Heq; injection Heq as Hhead Htail.
    + left. now subst.
    + right; right. exists pre'. now subst.
  - destruct pre as [|b pre']; simpl in Heq; injection Heq as Hhead Htail.
    + right; left. exists rest. now subst.
    + subst b. destruct (IH pre' Htail) as [(Hp & Hx & Hq)|[(mid & Hl & Hq)|(mid & Hp & Hl)]].
      * left. now subst.
      * right; left. exists mid. now subst.
      * right; right. exists mid. now subst.
Qed.

(** A call that is not a read, found in a log framed by reads, lies in
    the framed part. *)
Lemma frame_split (w1 l w2 pre post : list Call) (y : Call) :
  Forall (fun c => is_read c = true) w1 ->
  Forall (fun c => is_read c = true) w2 ->
  is_read y = false ->
  w1 ++ l ++ w2 = pre ++ y :: post ->
  exists pre' post',
    pre = w1 ++ pre' /\ post = post' ++ w2 /\ l = pre' ++ y :: post'.
Proof.
  intros Hw1 Hw2 Hy. revert pre.
  induction Hw1 as [|w w1 Hw Hw1 IH]; intros pre Heq; simpl in Heq.
  - revert pre Heq. induction l as [|a l IHl]; intros pre Heq; simpl in Heq.
    + exfalso. rewrite Forall_forall in Hw2.
      assert (Hin : In y w2) by (rewrite Heq; apply in_elt).
      apply Hw2 in Hin. congruence.
    + destruct pre as [|b pre']; simpl in Heq; injection Heq as Hhead Htail.
      * exists [], l. now subst.
      * destruct (IHl pre' Htail) as (pre2 & post2 & Hp & Hq & Hl).
        exists (a :: pre2), post2. now subst.
  - destruct pre as [|b pre']; simpl in Heq; injection Heq as Hhead Htail.
    + congruence.
    + destruct (IH pre' Htail) as (pre2 & post2 & Hp & Hq & Hl).
      exists pre2, post2. now subst.
Qed.

(** ** The block of one migration *)

Lemma block_call_no_completed (m : Migration Data) (l : list Call) :
  Forall (block_call m) l -> completed_versions l = [].
Proof.
  induction 1 as [|c rest Hc _ IH]; [reflexivity|].
  destruct c; simpl in *; try exact IH. contradiction.
Qed.

Lemma ok_calls_block (m : Migration Data) (ts : list Tenant) :
  Forall (block_call m) (flat_map (ok_calls m) ts).
Proof.
  induction ts as [|t rest IH]; [constructor|].
  simpl. constructor; [reflexivity|].
  apply Forall_app. split; [|exact IH].
  destruct (test m); repeat constructor.
Qed.

Lemma ok_calls_returned (m : Migration Data) (ts : list Tenant) (c : Call) :
  In c (flat_map (ok_calls m) ts) ->
  exists kind t, In t ts /\ kind <> Down
                 /\ c = Invoke kind (version m) (tenant_id t) None.
Proof.
  rewrite in_flat_map. intros (t & Ht & Hc). unfold ok_calls in Hc.
  destruct Hc as [Hc|Hc].
  - exists Up, t. now repeat split.
  - destruct (test m); [|contradiction].
    destruct Hc as [Hc|[]]. exists Test, t. now repeat split.
Qed.

Lemma try_log_block (m : Migration Data) (tenantID : string)
      (before : list Call) (kind : HookKind) :
  try_log m tenantID before kind ->
  Forall (block_call m) before /\ kind <> Down.
Proof.
  intros []; split; try discriminate; repeat constructor.
Qed.

Lemma catch_log_block (m : Migration Data) (tenantID : string) (err : Thrown)
      (after : list Call) (err' : Thrown) :
  catch_log m tenantID err after err' ->
  Forall (block_call m) after.
Proof.
  intros []; repeat constructor.
Qed.

Lemma aborted_block (m : Migration Data) (ts1 ts : list Tenant) (t : Tenant)
      (before after : list Call) (kind : HookKind) (err err' : Thrown) :
  try_log m (tenant_id t) before kind ->
  catch_log m (tenant_id t) err after err' ->
  Forall (block_call m)
         (IterateTenants ts :: flat_map (ok_calls m) ts1 ++ before
            ++ Invoke kind (version m) (tenant_id t) (Some err) :: after).
Proof.
  intros Htry Hcatch. constructor; [exact I|].
  apply Forall_app. split; [apply ok_calls_block|].
  apply Forall_app. split; [now apply (try_log_block Htry)|].
  constructor; [reflexivity | now apply (catch_log_block Hcatch)].
Qed.

Lemma block_prefix_no_completed (m : Migration Data) (l pre post : list Call)
      (y : Call) :
  Forall (block_call m) l -> l = pre ++ y :: post ->
  completed_versions pre = [] /\ block_call m y.
Proof.
  intros Hall ->. apply Forall_app in Hall as [Hpre Hrest].
  split; [now apply (block_call_no_completed Hpre)|].
  now apply Forall_inv in Hrest.
Qed.

(** ** Order of the calls in a run *)

Lemma run_log_completed (pend : list (Migration Data)) (out : Completion unit)
      (l : list Call) :
  run_log pend out l ->
  forall pre post v,
    l = pre ++ CreateRecord v :: post ->
    exists pre0 m ts i,
      nth_error pend i = Some m
      /\ version m = v
      /\ pre = pre0 ++ IterateTenants ts :: flat_map (ok_calls m) ts
      /\ completed_versions pre = map (@version Data) (firstn i pend).
Proof.
  induction 1 as [|m ms ts out l Hlog IH
                  |m ms ts1 t ts2 before kind err after err' Htry Hcatch];
    intros pre post v Heq.
  - now destruct pre.
  - assert (Hblock : Forall (block_call m)
                            (IterateTenants ts :: flat_map (ok_calls m) ts))
      by (constructor; [exact I | apply ok_calls_block]).
    change ((IterateTenants ts :: flat_map (ok_calls m) ts)
              ++ CreateRecord (version m) :: l
            = pre ++ CreateRecord v :: post) in Heq.
    apply app_cons_split in Heq
      as [(Hpre & Hx & Hpost)|[(mid & Hin & Hpost)|(mid & Hpre & Hrest)]].
    + injection Hx as Hv. exists [], m, ts, 0%nat. subst pre.
      repeat split; [exact Hv|]. now apply (block_call_no_completed Hblock).
    + destruct (@block_prefix_no_completed m _ _ _ _ Hblock Hin) as [_ []].
    + destruct (IH mid post v Hrest) as (pre0 & m' & ts' & i & Hnth & Hv & Hmid & Hcv).
      exists ((IterateTenants ts :: flat_map (ok_calls m) ts)
                ++ CreateRecord (version m) :: pre0), m', ts', (S i).
      split; [exact Hnth|]. split; [exact Hv|].
      split.
      * rewrite Hpre, Hmid, <- app_assoc. reflexivity.
      * rewrite Hpre, completed_versions_app,
          (block_call_no_completed Hblock).
        simpl. now rewrite Hcv.
  - destruct (@block_prefix_no_completed m _ _ _ _
                (@aborted_block m ts1 (ts1 ++ t :: ts2) t _ _ _ _ _ Htry Hcatch) Heq) as [_ []].
Qed.

Lemma run_log_hook (pend : list (Migration Data)) (out : Completion unit)
      (l : list Call) :
  run_log pend out l ->
  forall pre post kind v tenantID thrown,
    l = pre ++ Invoke kind v tenantID thrown :: post ->
    exists i m,
      nth_error pend i = Some m
      /\ version m = v
      /\ completed_versions pre = map (@version Data) (firstn i pend).
Proof.
  induction 1 as [|m ms ts out l Hlog IH
                  |m ms ts1 t ts2 before kind0 err after err' Htry Hcatch];
    intros pre post kind v tenantID thrown Heq.
  - now destruct pre.
  - assert (Hblock : Forall (block_call m)
                            (IterateTenants ts :: flat_map (ok_calls m) ts))
      by (constructor; [exact I | apply ok_calls_block]).
    change ((IterateTenants ts :: flat_map (ok_calls m) ts)
              ++ CreateRecord (version m) :: l
            = pre ++ Invoke kind v tenantID thrown :: post) in Heq.
    apply app_cons_split in Heq
      as [(Hpre & Hx & Hpost)|[(mid & Hin & Hpost)|(mid & Hpre & Hrest)]].
    + discriminate.
    + destruct (@block_prefix_no_completed m _ _ _ _ Hblock Hin) as [Hcv Hv].
      exists 0%nat, m. simpl in Hv. now repeat split.
    + destruct (IH mid post kind v tenantID thrown Hrest) as (i & m' & Hnth & Hv & Hcv).
      exists (S i), m'. split; [exact Hnth|]. split; [exact Hv|].
      rewrite Hpre, completed_versions_app, (block_call_no_completed Hblock).
      simpl. now rewrite Hcv.
  - destruct (@block_prefix_no_completed m _ _ _ _
                (@aborted_block m ts1 (ts1 ++ t :: ts2) t _ _ _ _ _ Htry Hcatch) Heq) as [Hcv Hv].
    exists 0%nat, m. simpl in Hv. now repeat split.
Qed.

Lemma run_log_prefix (pend : list (Migration Data)) (out : Completion unit)
      (l : list Call) :
  run_log pend out l ->
  (exists j, completed_versions l = map (@version Data) (firstn j pend))
  /\ (out = Returned tt -> completed_versions l = map (@version Data) pend).
Proof.
  induction 1 as [|m ms ts out l Hlog [[j IHj] IHall]
                  |m ms ts1 t ts2 before kind err after err' Htry Hcatch].
  - split; [now exists 0%nat | reflexivity].
  - assert (Hcv : completed_versions
                    (IterateTenants ts :: flat_map (ok_calls m) ts
                       ++ CreateRecord (version m) :: l)
                  = version m :: completed_versions l).
    { cbn [completed_versions]. rewrite completed_versions_app.
      now rewrite (block_call_no_completed (ok_calls_block m ts)). }
    rewrite Hcv. split.
    + exists (S j). simpl. now rewrite IHj.
    + intros Hout. simpl. now rewrite IHall.
  - split; [|discriminate].
    exists 0%nat.
    now apply (@block_call_no_completed m _
                 (@aborted_block m ts1 (ts1 ++ t :: ts2) t _ _ _ _ _ Htry Hcatch)).
Qed.

(** The log of a whole run is the log of the loop, framed by reads. *)
Lemma execute_log_frame (pend : list (Migration Data)) (out : Completion unit)
      (new : list Call) :
  execute_log pend out new ->
  exists l w2,
    new = [RetrieveAll; RetrieveAll] ++ l ++ w2
    /\ Forall (fun c => is_read c = true) w2
    /\ (forall e, out = Threw e -> w2 = [])
    /\ run_log pend out l.
Proof.
  intros [Hpend|l Hpend Hlog|l err Hlog].
  - exists [], []. subst pend. repeat split; constructor.
  - exists l, [RetrieveAll].
    repeat split; [repeat constructor | discriminate | exact Hlog].
  - exists l, []. rewrite app_nil_r. repeat split; [constructor | exact Hlog].
Qed.

Lemma two_reads : Forall (fun c => is_read c = true) [RetrieveAll; RetrieveAll].
Proof. repeat constructor. Qed.

(** What a first run logs: either the store holds a failed record and the
    run stops after its two reads, or the log has the shape [execute_log]
    describes. *)
Lemma fresh_run_log (tenantCache : TenantCache Data)
      (discovered : list (Migration Data)) (db : Db Data) :
  exists l w2,
    calls (snd (executePendingMigrations (fresh tenantCache discovered db)))
    = [RetrieveAll; RetrieveAll] ++ l ++ w2
    /\ Forall (fun c => is_read c = true) w2
    /\ (forall e,
           fst (executePendingMigrations (fresh tenantCache discovered db))
           = Threw e -> w2 = [])
    /\ ((exists r, l = []
                   /\ fst (executePendingMigrations (fresh tenantCache discovered db))
                      = Threw (FailedMigrationDetectedError r))
        \/ run_log (unrecorded (records db)
                               (migrations (newManager tenantCache discovered)))
                   (fst (executePendingMigrations (fresh tenantCache discovered db)))
                   l).
Proof.
  destruct (find record_failed (records db)) as [r|] eqn:Hfind.
  - exists [], []. rewrite executePendingMigrations_eq, pending_eq. simpl.
    rewrite Hfind. simpl. repeat split; [constructor|]. left. now exists r.
  - destruct (@execute_log_fresh (fresh tenantCache discovered db) eq_refl Hfind)
      as (out & s' & new & Hrun & _ & Hcalls & Hlog).
    rewrite Hrun. simpl in *.
    destruct (execute_log_frame Hlog) as (l & w2 & Hnew & Hw2 & Hthrew & Hrunlog).
    exists l, w2. rewrite Hcalls, Hnew.
    split; [reflexivity|]. split; [exact Hw2|]. split; [exact Hthrew|].
    right. exact Hrunlog.
Qed.

Lemma ascending_distinct_strict (l : list (Migration Data)) :
  ascending l ->
  NoDup (map (@version Data) l) ->
  StronglySorted (fun a b => (version a < version b)%N) l.
Proof.
  induction 1 as [|a rest Hsorted IH Hall]; intros Hnodup.
  - constructor.
  - simpl in Hnodup. apply NoDup_cons_iff in Hnodup as [Hfresh Hnodup].
    constructor; [now apply IH|].
    rewrite Forall_forall in *. intros b Hb.
    assert (Hne : version a <> version b).
    { intros Heq. apply Hfresh. rewrite Heq. now apply in_map. }
    specialize (Hall b Hb). simpl in Hall. lia.
Qed.

Lemma newManager_distinct_strict (tenantCache : TenantCache Data)
      (discovered : list (Migration Data)) :
  NoDup (map (@version Data) discovered) ->
  StronglySorted (fun a b => (version a < version b)%N)
                 (migrations (newManager tenantCache discovered)).
Proof.
  intros Hnodup. apply ascending_distinct_strict.
  - apply newManager_ascending.
  - eapply Permutation_NoDup; [|exact Hnodup].
    apply Permutation_map. apply array_sort_permutation.
Qed.

(** C3: in the log of [executePendingMigrations] on a freshly constructed
    manager, the pending list is ascending by version (strictly so when
    the discovered versions are pairwise distinct) and
    - a completed record is written only right after one full iteration of
      the tenant source in which [up] (and [test], when the unit has one)
      returned for every tenant yielded, and it is the record of the pending
      unit whose predecessors, and only they, have their records written;
    - whenever a hook of a pending unit is invoked, the completed records
      written so far are exactly those of the pending units before it, in
      order: no hook of the next unit runs before the record of the
      current one is written;
    - the completed records written are those of an initial segment of the
      pending list, in order, and of the whole list when the run returns. *)
Theorem completed_record_follows_all_tenants
        (tenantCache : TenantCache Data) (discovered : list (Migration Data))
        (db : Db Data) :
  let pend := unrecorded (records db)
                         (migrations (newManager tenantCache discovered)) in
  let run := executePendingMigrations (fresh tenantCache discovered db) in
  ascending pend
  /\ (NoDup (map (@version Data) discovered) ->
      StronglySorted (fun a b => (version a < version b)%N) pend)
  /\ (forall pre post v,
         calls (snd run) = pre ++ CreateRecord v :: post ->
         exists pre0 m ts i,
           nth_error pend i = Some m
           /\ version m = v
           /\ pre = pre0 ++ IterateTenants ts :: flat_map (ok_calls m) ts
           /\ completed_versions pre = map (@version Data) (firstn i pend))
  /\ (forall pre post kind v tenantID thrown,
         calls (snd run) = pre ++ Invoke kind v tenantID thrown :: post ->
         exists i m,
           nth_error pend i = Some m
           /\ version m = v
           /\ completed_versions pre = map (@version Data) (firstn i pend))
  /\ (exists j, completed_versions (calls (snd run))
                = map (@version Data) (firstn j pend))
  /\ (fst run = Returned tt ->
      completed_versions (calls (snd run)) = map (@version Data) pend).
Proof.
  intros pend run.
  destruct (fresh_run_log tenantCache discovered db)
    as (l & w2 & Hcalls & Hw2 & _ & Hshape).
  fold run in Hcalls, Hshape. fold pend in Hshape.
  assert (Hcv : completed_versions (calls (snd run)) = completed_versions l).
  { rewrite Hcalls, !completed_versions_app. simpl.
    assert (Hnone : completed_versions w2 = []).
    { clear -Hw2. induction Hw2 as [|c rest Hc _ IH]; [reflexivity|].
      destruct c; try discriminate. exact IH. }
    now rewrite Hnone, app_nil_r. }
  split.
  { unfold pend, unrecorded, ascending.
    eapply subsequence_sorted; [apply subsequence_filter|].
    apply newManager_ascending. }
  split.
  { intros Hnodup. unfold pend, unrecorded.
    eapply subsequence_sorted; [apply subsequence_filter|].
    now apply newManager_distinct_strict. }
  split.
  { intros pre post v Heq. rewrite Hcalls in Heq.
    apply frame_split in Heq as (pre' & post' & Hpre & _ & Hl);
      [|apply two_reads | exact Hw2 | reflexivity].
    destruct Hshape as [(r & Hnil & _)|Hlog].
    - rewrite Hnil in Hl. now destruct pre'.
    - destruct (run_log_completed Hlog _ _ _ Hl)
        as (pre0 & m & ts & i & Hnth & Hv & Hpre' & Hcvpre).
      exists ([RetrieveAll; RetrieveAll] ++ pre0), m, ts, i.
      split; [exact Hnth|]. split; [exact Hv|].
      split; [now rewrite Hpre, Hpre'|].
      rewrite Hpre. exact Hcvpre. }
  split.
  { intros pre post kind v tenantID thrown Heq. rewrite Hcalls in Heq.
    apply frame_split in Heq as (pre' & post' & Hpre & _ & Hl);
      [|apply two_reads | exact Hw2 | reflexivity].
    destruct Hshape as [(r & Hnil & _)|Hlog].
    - rewrite Hnil in Hl. now destruct pre'.
    - destruct (run_log_hook Hlog _ _ _ _ _ _ Hl) as (i & m & Hnth & Hv & Hcvpre).
      exists i, m. split; [exact Hnth|]. split; [exact Hv|].
      rewrite Hpre. exact Hcvpre. }
  rewrite Hcv.
  destruct Hshape as [(r & Hnil & Hout)|Hlog].
  - rewrite Hnil. split; [now exists 0%nat|]. rewrite Hout. discriminate.
  - apply run_log_prefix in Hlog. exact Hlog.
Qed.

(** ** The first failing tenant *)

Lemma ok_calls_not_thrown (m : Migration Data) (ts : list Tenant) :
  Forall (fun c => is_thrown_try c = false) (flat_map (ok_calls m) ts).
Proof.
  apply Forall_forall. intros c Hc.
  apply ok_calls_returned in Hc as (kind & t & _ & _ & ->).
  now destruct kind.
Qed.

Lemma try_log_not_thrown (m : Migration Data) (tenantID : string)
      (before : list Call) (kind : HookKind) :
  try_log m tenantID before kind ->
  Forall (fun c => is_thrown_try c = false) before.
Proof. intros []; repeat constructor. Qed.

Lemma catch_log_not_thrown (m : Migration Data) (tenantID : string)
      (err : Thrown) (after : list Call) (err' : Thrown) :
  catch_log m tenantID err after err' ->
  Forall (fun c => is_thrown_try c = false) after.
Proof. intros []; repeat constructor. Qed.

Lemma not_thrown_absurd (l pre post : list Call) (y : Call) :
  Forall (fun c => is_thrown_try c = false) l ->
  l = pre ++ y :: post ->
  is_thrown_try y = true -> False.
Proof.
  intros Hall -> Hy. apply Forall_app in Hall as [_ Hrest].
  apply Forall_inv in Hrest. congruence.
Qed.

(** Where a throwing [up] or [test] sits in the log of the loop, and what
    surrounds it. *)
Lemma run_log_failure (pend : list (Migration Data)) (out : Completion unit)
      (l : list Call) :
  run_log pend out l ->
  forall pre post kind v tenantID err,
    kind <> Down ->
    l = pre ++ Invoke kind v tenantID (Some err) :: post ->
    exists pre0 m ts1 t ts2 before err',
      In m pend
      /\ version m = v
      /\ tenant_id t = tenantID
      /\ try_log m tenantID before kind
      /\ catch_log m tenantID err post err'
      /\ pre = pre0 ++ IterateTenants (ts1 ++ t :: ts2)
                    :: flat_map (ok_calls m) ts1 ++ before
      /\ out = Threw err'.
Proof.
  induction 1 as [|m ms ts out l Hlog IH
                  |m ms ts1 t ts2 before kind0 err0 after err' Htry Hcatch];
    intros pre post kind v tenantID err Hkind Heq.
  - now destruct pre.
  - assert (Hthrown : is_thrown_try (Invoke kind v tenantID (Some err)) = true)
      by now destruct kind.
    change ((IterateTenants ts :: flat_map (ok_calls m) ts)
              ++ CreateRecord (version m) :: l
            = pre ++ Invoke kind v tenantID (Some err) :: post) in Heq.
    apply app_cons_split in Heq
      as [(Hpre & Hx & Hpost)|[(mid & Hin & Hpost)|(mid & Hpre & Hrest)]].
    + discriminate.
    + exfalso. eapply not_thrown_absurd; [|exact Hin|exact Hthrown].
      constructor; [reflexivity | apply ok_calls_not_thrown].
    + destruct (IH mid post kind v tenantID err Hkind Hrest)
        as (pre0 & m' & ts1 & t & ts2 & before & err'
            & Hm & Hv & Ht & Htry & Hcatch & Hmid & Hout).
      exists ((IterateTenants ts :: flat_map (ok_calls m) ts)
                ++ CreateRecord (version m) :: pre0),
        m', ts1, t, ts2, before, err'.
      split; [now right|]. repeat (split; [assumption|]).
      split; [|exact Hout].
      rewrite Hpre, Hmid, <- app_assoc. reflexivity.
  - assert (Hthrown : is_thrown_try (Invoke kind v tenantID (Some err)) = true)
      by now destruct kind.
    rewrite app_comm_cons, app_assoc in Heq.
    apply app_cons_split in Heq
      as [(Hpre & Hx & Hpost)|[(mid & Hin & Hpost)|(mid & Hpre & Hrest)]].
    + injection Hx as Hk Hv Ht He. subst.
      exists [], m, ts1, t, ts2, before, err'.
      split; [now left|]. repeat split; try assumption.
    + exfalso. eapply not_thrown_absurd; [|exact Hin|exact Hthrown].
      constructor; [reflexivity|].
      apply Forall_app. split; [apply ok_calls_not_thrown|].
      eapply try_log_not_thrown; eassumption.
    + exfalso. eapply not_thrown_absurd; [|exact Hrest|exact Hthrown].
      eapply catch_log_not_thrown; eassumption.
Qed.


(** Where the first throwing [up] or [test] of a first run sits, and how
    the [catch] block went from there. *)
Lemma fresh_failure (tenantCache : TenantCache Data)
      (discovered : list (Migration Data)) (db : Db Data)
      (pre post : list Call) (kind : HookKind) (v : N) (tenantID : string)
      (err : Thrown) :
  kind <> Down ->
  calls (snd (executePendingMigrations (fresh tenantCache discovered db)))
  = pre ++ Invoke kind v tenantID (Some err) :: post ->
  exists pre0 m ts1 t ts2 before err',
    In m (unrecorded (records db) (migrations (newManager tenantCache discovered)))
    /\ version m = v
    /\ tenant_id t = tenantID
    /\ try_log m tenantID before kind
    /\ catch_log m tenantID err post err'
    /\ pre = pre0 ++ IterateTenants (ts1 ++ t :: ts2)
                  :: flat_map (ok_calls m) ts1 ++ before
    /\ fst (executePendingMigrations (fresh tenantCache discovered db))
       = Threw err'.
Proof.
  intros Hkind Heq.
  destruct (fresh_run_log tenantCache discovered db)
    as (l & w2 & Hcalls & Hw2 & Hthrew & Hshape).
  rewrite Hcalls in Heq.
  apply frame_split in Heq as (pre' & post' & Hpre & Hpost & Hl);
    [|apply two_reads | exact Hw2 | reflexivity].
  destruct Hshape as [(r & Hnil & _)|Hlog].
  { rewrite Hnil in Hl. now destruct pre'. }
  destruct (@run_log_failure _ _ _ Hlog pre' post' kind v tenantID err Hkind Hl)
    as (pre0 & m & ts1 & t & ts2 & before & err'
        & Hm & Hv & Ht & Htry & Hcatch & Hpre' & Hout).
  rewrite (Hthrew err' Hout), app_nil_r in Hpost. subst post'.
  exists ([RetrieveAll; RetrieveAll] ++ pre0), m, ts1, t, ts2, before, err'.
  repeat (split; [assumption|]).
  split; [now rewrite Hpre, Hpre' | exact Hout].
Qed.



(** C5, amended: in the first run of a fresh manager, after an [up] or
    [test] of a pending migration threw, the run ends in one of three ways.
    Without a [down] hook, and with a [down] hook that is attempted and
    returns, the failed record of that version is the last call and the run
    then throws the original error, so the record is persisted before the
    error is re-raised.  With a [down] hook that itself throws, the run
    ends there with the error of [down]: the original error is not
    re-raised and no failed record is written. *)
Theorem failed_record_precedes_rethrow
        (tenantCache : TenantCache Data) (discovered : list (Migration Data))
        (db : Db Data) (pre post : list Call) (kind : HookKind) (v : N)
        (tenantID : string) (err : Thrown) :
  kind <> Down ->
  calls (snd (executePendingMigrations (fresh tenantCache discovered db)))
  = pre ++ Invoke kind v tenantID (Some err) :: post ->
  catch_outcome
    (unrecorded (records db) (migrations (newManager tenantCache discovered)))
    post v tenantID err
    (fst (executePendingMigrations (fresh tenantCache discovered db))).
Proof.
  intros Hkind Heq.
  destruct (@fresh_failure tenantCache discovered db pre post kind v tenantID err
              Hkind Heq)
    as (pre0 & m & ts1 & t & ts2 & before & err'
        & Hm & Hv & Ht & Htry & Hcatch & Hpre & Hout).
  exists m. split; [exact Hm|]. split; [exact Hv|].
  rewrite Hout, <- Hv.
  destruct Hcatch as [Hnone|d Hdown|d err2 Hdown].
  - left. now repeat split.
  - right; left. exists d. now repeat split.
  - right; right. exists d, err2. now repeat split.
Qed.

End Properties.

(** * The properties at work *)

(** End-to-end scenario A of the specification, with units that all
    succeed: every unit runs for every tenant in order, each followed by its
    completed record. *)
Example scenario_all_succeed :
  let run := executePendingMigrations
               (fresh Scenario.two_tenants
                      [Scenario.add_stories; Scenario.create_users]
                      Scenario.empty_store) in
  fst run = Returned tt
  /\ calls (snd run)
     = [RetrieveAll; RetrieveAll;
        IterateTenants [Scenario.t1; Scenario.t2];
        Invoke Up 1 "t1" None; Invoke Up 1 "t2" None;
        CreateRecord 1;
        IterateTenants [Scenario.t1; Scenario.t2];
        Invoke Up 3 "t1" None; Invoke Test 3 "t1" None;
        Invoke Up 3 "t2" None; Invoke Test 3 "t2" None;
        CreateRecord 3;
        RetrieveAll]
  /\ records (mongo (snd run)) = [mkRecord 1 completed; mkRecord 3 completed].
Proof. vm_compute. repeat split. Qed.

(** End-to-end scenario D: the second unit throws in [up] for its first
    tenant and has a [down] that returns. *)
Example scenario_rollback :
  let run := executePendingMigrations
               (fresh Scenario.two_tenants
                      [Scenario.add_stories; Scenario.broken_index;
                       Scenario.create_users]
                      Scenario.empty_store) in
  fst run = Threw (Error "up failed")
  /\ calls (snd run)
     = [RetrieveAll; RetrieveAll;
        IterateTenants [Scenario.t1; Scenario.t2];
        Invoke Up 1 "t1" None; Invoke Up 1 "t2" None;
        CreateRecord 1;
        IterateTenants [Scenario.t1; Scenario.t2];
        Invoke Up 2 "t1" (Some (Error "up failed"));
        Invoke Down 2 "t1" None;
        CreateFailedRecord 2]
  /\ records (mongo (snd run)) = [mkRecord 1 completed; mkRecord 2 failed].
Proof. vm_compute. repeat split. Qed.

Lemma pending_is_set_difference_witness :
  (forall r, In r (records Scenario.one_completed) -> record_failed r = false)
  /\ exists result,
      pending (fresh Scenario.two_tenants
                     [Scenario.add_stories; Scenario.broken_index;
                      Scenario.create_users]
                     Scenario.one_completed)
      = (Returned result,
         log RetrieveAll
             (fresh Scenario.two_tenants
                    [Scenario.add_stories; Scenario.broken_index;
                     Scenario.create_users]
                    Scenario.one_completed))
      /\ map (@version nat) result = [2%N; 3%N].
Proof.
  assert (Hok : forall r, In r (records Scenario.one_completed) ->
                          record_failed r = false).
  { simpl. intros r [<-|[]]. reflexivity. }
  split; [exact Hok|].
  destruct (@pending_is_set_difference nat
              (fresh Scenario.two_tenants
                     [Scenario.add_stories; Scenario.broken_index;
                      Scenario.create_users]
                     Scenario.one_completed) Hok)
    as (result & Hrun & _ & Hversions & _).
  exists result. split; [exact Hrun | exact Hversions].
Defined.

Lemma failed_record_stops_everything_witness :
  (exists r0, In r0 (records Scenario.one_failed) /\ record_failed r0 = true)
  /\ pending (fresh Scenario.two_tenants
                    [Scenario.add_stories; Scenario.broken_index;
                     Scenario.create_users]
                    Scenario.one_failed)
     = (Threw (FailedMigrationDetectedError (mkRecord 2 failed)),
        log RetrieveAll
            (fresh Scenario.two_tenants
                   [Scenario.add_stories; Scenario.broken_index;
                    Scenario.create_users]
                   Scenario.one_failed)).
Proof.
  assert (Hfailed : exists r0, In r0 (records Scenario.one_failed)
                               /\ record_failed r0 = true).
  { exists (mkRecord 2 failed). split; [right; now left | reflexivity]. }
  split; [exact Hfailed|].
  destruct (@failed_record_stops_everything nat
              (fresh Scenario.two_tenants
                     [Scenario.add_stories; Scenario.broken_index;
                      Scenario.create_users]
                     Scenario.one_failed) Hfailed)
    as (r & Hfind & _ & _ & Hpending & _).
  simpl in Hfind. injection Hfind as <-. exact Hpending.
Defined.

Lemma skip_marks_all_or_nothing_witness :
  exists s',
    skipPendingMigrations
      (fresh Scenario.two_tenants
             [Scenario.add_stories; Scenario.broken_index; Scenario.create_users]
             Scenario.empty_store)
    = (Returned tt, s')
    /\ calls s' = [RetrieveAll; CreateSkippedRecords [1%N; 2%N; 3%N]]
    /\ records (mongo s')
       = [mkRecord 1 skipped; mkRecord 2 skipped; mkRecord 3 skipped].
Proof.
  destruct (@skip_marks_all_or_nothing nat
              (fresh Scenario.two_tenants
                     [Scenario.add_stories; Scenario.broken_index;
                      Scenario.create_users]
                     Scenario.empty_store) eq_refl)
    as [Hempty _].
  destruct (Hempty eq_refl) as (s' & Hrun & Hcalls & Hrecords & _).
  exists s'. split; [exact Hrun|]. split; [exact Hcalls | exact Hrecords].
Defined.

Lemma refused_skip_consumes_instance_witness :
  exists s1,
    skipPendingMigrations
      (fresh Scenario.two_tenants
             [Scenario.add_stories; Scenario.create_users]
             Scenario.one_completed)
    = (Threw skipOnNonEmptyStore, s1)
    /\ records (mongo s1) = [mkRecord 1 completed]
    /\ executePendingMigrations s1 = (Threw alreadyExecuted, s1).
Proof.
  destruct (@refused_skip_consumes_instance nat
              (fresh Scenario.two_tenants
                     [Scenario.add_stories; Scenario.create_users]
                     Scenario.one_completed) eq_refl)
    as (s1 & Hrun & _ & Hmongo & _ & Hnext).
  { simpl. discriminate. }
  exists s1. split; [exact Hrun|].
  split; [now rewrite Hmongo | exact (Hnext ExecutePending)].
Defined.

Lemma no_tenants_completes_everything_witness :
  exists s',
    executePendingMigrations
      (fresh Scenario.no_tenants
             [Scenario.add_stories; Scenario.broken_index; Scenario.create_users]
             Scenario.one_completed)
    = (Returned tt, s')
    /\ records (mongo s')
       = [mkRecord 1 completed; mkRecord 2 completed; mkRecord 3 completed].
Proof.
  destruct (@no_tenants_completes_everything nat
              (fresh Scenario.no_tenants
                     [Scenario.add_stories; Scenario.broken_index;
                      Scenario.create_users]
                     Scenario.one_completed))
    as (s' & new & Hrun & _ & _ & _ & Hrecords & _).
  - intros db. reflexivity.
  - reflexivity.
  - simpl. intros r [<-|[]]. reflexivity.
  - exists s'. split; [exact Hrun | exact Hrecords].
Defined.



(** C5, as stated, fails: [test] of the unit throws for the first
    tenant and the [down] that is attempted throws as well.  Nothing
    follows that [down] in the log: no failed record is written, and the
    run throws the error of [down], not the original one. *)
Lemma failure_recorded_claim_counterexample :
  ~ failure_recorded_claim Scenario.two_tenants [Scenario.broken_test]
      Scenario.empty_store.
Proof.
  intros Hclaim.
  destruct (Hclaim
              [RetrieveAll; RetrieveAll;
               IterateTenants [Scenario.t1; Scenario.t2];
               Invoke Up 2 "t1" None]
              [Invoke Down 2 "t1" (Some (Error "down failed"))]
              Test 2%N "t1"%string (Error "test failed"))
    as [[Hfailed|[]] _].
  - discriminate.
  - reflexivity.
  - discriminate.
Qed.

Lemma failed_record_precedes_rethrow_witness :
  catch_outcome
    [Scenario.create_users; Scenario.broken_index; Scenario.add_stories]
    [Invoke Down 2 "t1" None; CreateFailedRecord 2]
    2 "t1" (Error "up failed") (Threw (Error "up failed")).
Proof.
  refine (@failed_record_precedes_rethrow nat Scenario.two_tenants
            [Scenario.add_stories; Scenario.broken_index; Scenario.create_users]
            Scenario.empty_store
            [RetrieveAll; RetrieveAll;
             IterateTenants [Scenario.t1; Scenario.t2];
             Invoke Up 1 "t1" None; Invoke Up 1 "t2" None;
             CreateRecord 1;
             IterateTenants [Scenario.t1; Scenario.t2]]
            [Invoke Down 2 "t1" None; CreateFailedRecord 2]
            Up 2 "t1" (Error "up failed") _ _).
  - discriminate.
  - reflexivity.
Defined.

(** The run with a throwing [test] and a throwing [down], in full: the
    [catch] block is left at [down], the store holds no failed record and
    nothing was written. *)
Example throwing_down_leaves_no_failed_record :
  let run := executePendingMigrations
               (fresh Scenario.two_tenants [Scenario.broken_test]
                      Scenario.empty_store) in
  fst run = Threw (Error "down failed")
  /\ calls (snd run)
     = [RetrieveAll; RetrieveAll;
        IterateTenants [Scenario.t1; Scenario.t2];
        Invoke Up 2 "t1" None;
        Invoke Test 2 "t1" (Some (Error "test failed"));
        Invoke Down 2 "t1" (Some (Error "down failed"))]
  /\ records (mongo (snd run)) = []
  /\ existsb is_write (calls (snd run)) = false.
Proof. vm_compute. repeat split. Qed.

(** Digit runs above 2^53 are rounded as the program's numbers are. *)
Example versions_are_doubles :
  version_of "9007199254740993_a.ts" = Finite 9007199254740992
  /\ version_of "9007199254740992_b.ts" = Finite 9007199254740992
  /\ version_of "1554318843000_add_index.ts" = Finite 1554318843000.
Proof. vm_compute. repeat split. Qed.

(** * Further properties of the manager *)

(** ** Relations every step of a run keeps *)

Section Closure.

Variable Data : Type.
Variable R : State Data -> State Data -> Prop.
Hypothesis R_refl : forall s, R s s.
Hypothesis R_trans : forall s1 s2 s3, R s1 s2 -> R s2 s3 -> R s1 s3.

Lemma keeps_ret {A} (a : A) : keeps R (ret (Data:=Data) a).
Proof. intros s. apply R_refl. Qed.

Lemma keeps_throw {A} (e : Thrown) : keeps R (throw (Data:=Data) (A:=A) e).
Proof. intros s. apply R_refl. Qed.

Lemma keeps_bind {A B} (m : M Data A) (k : A -> M Data B) :
  keeps R m -> (forall a, keeps R (k a)) -> keeps R (bind m k).
Proof.
  intros Hm Hk s. unfold bind. specialize (Hm s).
  destruct (m s) as [[a|e] s1]; simpl in *; [|exact Hm].
  eapply R_trans; [exact Hm | apply Hk].
Qed.

Lemma keeps_try_catch {A} (body : M Data A) (handler : Thrown -> M Data A) :
  keeps R body -> (forall err, keeps R (handler err)) ->
  keeps R (try_catch body handler).
Proof.
  intros Hbody Hhandler s. unfold try_catch. specialize (Hbody s).
  destruct (body s) as [[a|e] s1]; simpl in *; [exact Hbody|].
  eapply R_trans; [exact Hbody | apply Hhandler].
Qed.

Lemma keeps_for_of {A} (xs : list A) (body : A -> M Data unit) :
  (forall x, In x xs -> keeps R (body x)) -> keeps R (for_of xs body).
Proof.
  induction xs as [|x rest IH]; intros Hbody.
  - apply keeps_ret.
  - simpl. apply keeps_bind.
    + apply Hbody. now left.
    + intros _. apply IH. intros y Hy. apply Hbody. now right.
Qed.

End Closure.

Section Coverage.

Variable Data : Type.

(** ** The store only grows, by what the log says *)

Lemma extends_store_refl (s : State Data) : extends_store s s.
Proof. exists []. now rewrite !app_nil_r. Qed.

Lemma written_app (l l' : list Call) : written (l ++ l') = written l ++ written l'.
Proof.
  induction l as [|c rest IH]; [reflexivity|].
  destruct c; simpl; rewrite ?IH; try reflexivity. now rewrite app_assoc.
Qed.

Lemma extends_store_trans (s1 s2 s3 : State Data) :
  extends_store s1 s2 -> extends_store s2 s3 -> extends_store s1 s3.
Proof.
  intros (n1 & Hc1 & Hr1) (n2 & Hc2 & Hr2). exists (n1 ++ n2).
  rewrite Hc2, Hc1, Hr2, Hr1, written_app. now rewrite !app_assoc.
Qed.

Lemma extends_store_one (c : Call) (s s' : State Data) :
  calls s' = calls s ++ [c] ->
  records (mongo s') = records (mongo s) ++ written [c] ->
  extends_store s s'.
Proof. intros Hc Hr. now exists [c]. Qed.

Lemma invoke_keeps_store (kind : HookKind) (m : Migration Data) (h : Hook Data)
      (tenantID : string) :
  keeps_records h -> keeps (@extends_store Data) (invoke kind m h tenantID).
Proof.
  intros Hkeeps s. unfold invoke. specialize (Hkeeps (mongo s) tenantID).
  destruct (h (mongo s) tenantID) as [db thrown]. simpl in *.
  eapply extends_store_one; [reflexivity|]. simpl. now rewrite app_nil_r.
Qed.

Lemma run_migration_keeps_store (m : Migration Data) :
  hooks_keep_records m -> keeps (@extends_store Data) (run_migration m).
Proof.
  intros Hm.
  assert (Hinvoke : forall kind h tenantID,
             hook_of kind m = Some h ->
             keeps (@extends_store Data) (invoke kind m h tenantID)).
  { intros kind h tenantID Hh. apply invoke_keeps_store. eapply Hm; exact Hh. }
  unfold run_migration.
  apply keeps_bind; [apply extends_store_trans| |].
  { intros s. eapply extends_store_one; [reflexivity|].
    simpl. now rewrite app_nil_r. }
  intros yielded. apply keeps_bind; [apply extends_store_trans| |].
  - apply keeps_for_of; [apply extends_store_refl | apply extends_store_trans|].
    intros t _. unfold run_tenant.
    apply keeps_try_catch; [apply extends_store_trans| |].
    + unfold try_block. apply keeps_bind; [apply extends_store_trans| |].
      * now apply Hinvoke.
      * intros _. destruct (test m) as [h|] eqn:Htest.
        -- now apply Hinvoke.
        -- apply keeps_ret, extends_store_refl.
    + intros err. unfold catch_block.
      apply keeps_bind; [apply extends_store_trans| |].
      * destruct (down m) as [h|] eqn:Hdown.
        -- now apply Hinvoke.
        -- apply keeps_ret, extends_store_refl.
      * intros _. apply keeps_bind; [apply extends_store_trans| |].
        -- intros s. eapply extends_store_one; reflexivity.
        -- intros _. apply keeps_throw, extends_store_refl.
  - intros _ s. eapply extends_store_one; reflexivity.
Qed.

Lemma unrecorded_subset (stored : list MigrationRecord)
      (discovered : list (Migration Data)) (m : Migration Data) :
  In m (unrecorded stored discovered) -> In m discovered.
Proof. intros H. now apply unrecorded_In in H. Qed.

Lemma two_reads_extend (s : State Data) :
  extends_store s (log RetrieveAll (log RetrieveAll (with_ran true s))).
Proof.
  exists [RetrieveAll; RetrieveAll]. simpl.
  now rewrite <- app_assoc, app_nil_r.
Qed.

Lemma enter_extends_store (e : EntryPoint) (s : State Data) :
  (forall m, In m (migrations (this s)) -> hooks_keep_records m) ->
  extends_store s (snd (enter e s)).
Proof.
  intros Hkeep. destruct e; simpl.
  - rewrite skipPendingMigrations_eq.
    destruct (ran (this s)); [apply extends_store_refl|].
    rewrite currentMigration_eq.
    destruct (if (0 <? List.length (records (mongo (with_ran true s))))%nat
              then _ else _); simpl.
    + exists [RetrieveAll]. simpl. now rewrite app_nil_r.
    + match goal with
      | |- context [CreateSkippedRecords ?vs] =>
          exists [RetrieveAll; CreateSkippedRecords vs]
      end.
      simpl. now rewrite <- app_assoc, app_nil_r.
  - rewrite executePendingMigrations_eq.
    destruct (ran (this s)); [apply extends_store_refl|].
    rewrite pending_eq.
    destruct (find record_failed _); simpl; [apply two_reads_extend|].
    match goal with
    | |- context [for_of ?pend _ ?s0] =>
        assert (Hloop : extends_store s0 (snd (for_of pend (@run_migration Data) s0)));
        [|destruct (List.length pend =? 0)%nat; [apply two_reads_extend|];
          destruct (for_of pend (@run_migration Data) s0) as [[[]|err] s1]]
    end.
    + apply keeps_for_of; [apply extends_store_refl | apply extends_store_trans|].
      intros m Hm. apply run_migration_keeps_store, Hkeep.
      apply unrecorded_subset in Hm. exact Hm.
    + simpl in *. eapply extends_store_trans; [apply two_reads_extend|].
      eapply extends_store_trans; [exact Hloop|].
      exists [RetrieveAll]. simpl. now rewrite app_nil_r.
    + simpl in *. eapply extends_store_trans; [apply two_reads_extend|].
      exact Hloop.
Qed.

(** X1 (store invariant): provided the hooks of the discovered units do
    not touch the migration records themselves, a call of either entry
    point never removes, reorders or rewrites a stored record: the store
    afterwards is the store before followed by exactly the records the
    create calls of the log stand for. *)
Theorem entry_point_only_appends (e : EntryPoint) (s : State Data) :
  (forall m, In m (migrations (this s)) -> hooks_keep_records m) ->
  exists new,
    calls (snd (enter e s)) = calls s ++ new
    /\ records (mongo (snd (enter e s))) = records (mongo s) ++ written new.
Proof.
  intros Hkeep.
  destruct (enter_extends_store e s Hkeep) as (new & Hcalls & Hrecords).
  exists new. split; [exact Hcalls | exact Hrecords].
Qed.

(** ** Every logged call is backed by a collaborator *)

Lemma extends_log_refl (ms : list (Migration Data)) (s : State Data) :
  extends_log ms s s.
Proof. split; [reflexivity|]. exists []. now rewrite app_nil_r. Qed.

Lemma extends_log_trans (ms : list (Migration Data)) (s1 s2 s3 : State Data) :
  extends_log ms s1 s2 -> extends_log ms s2 s3 -> extends_log ms s1 s3.
Proof.
  intros (Ht1 & n1 & Hc1 & Hb1) (Ht2 & n2 & Hc2 & Hb2).
  split; [congruence|]. exists (n1 ++ n2).
  split; [now rewrite Hc2, Hc1, app_assoc|].
  apply Forall_app. split; [exact Hb1|]. now rewrite <- Ht1.
Qed.

Lemma extends_log_one (ms : list (Migration Data)) (c : Call) (s s' : State Data) :
  tenants (this s') = tenants (this s) ->
  calls s' = calls s ++ [c] ->
  backed ms (tenants (this s)) c ->
  extends_log ms s s'.
Proof.
  intros Ht Hc Hb. split; [exact Ht|]. exists [c]. split; [exact Hc|].
  now constructor.
Qed.

Lemma invoke_keeps_log (ms : list (Migration Data)) (kind : HookKind)
      (m : Migration Data) (h : Hook Data) (tenantID : string) :
  In m ms -> hook_of kind m = Some h ->
  keeps (extends_log ms) (invoke kind m h tenantID).
Proof.
  intros Hm Hh s. unfold invoke.
  destruct (h (mongo s) tenantID) as [db thrown] eqn:Hrun. simpl.
  eapply extends_log_one; [reflexivity | reflexivity|].
  simpl. exists m, h, (mongo s). now rewrite Hrun.
Qed.

Lemma run_migration_keeps_log (ms : list (Migration Data)) (m : Migration Data) :
  In m ms -> keeps (extends_log ms) (run_migration m).
Proof.
  intros Hm.
  pose proof (@extends_log_refl ms) as Hrefl.
  pose proof (@extends_log_trans ms) as Htrans.
  unfold run_migration.
  apply keeps_bind; [exact Htrans| |].
  { intros s. eapply extends_log_one; [reflexivity | reflexivity|].
    simpl. now exists (mongo s). }
  intros yielded. apply keeps_bind; [exact Htrans| |].
  - apply keeps_for_of; [exact Hrefl | exact Htrans|].
    intros t _. unfold run_tenant.
    apply keeps_try_catch; [exact Htrans| |].
    + unfold try_block. apply keeps_bind; [exact Htrans| |].
      * now apply invoke_keeps_log.
      * intros _. destruct (test m) as [h|] eqn:Htest.
        -- now apply invoke_keeps_log.
        -- now apply keeps_ret.
    + intros err. unfold catch_block.
      apply keeps_bind; [exact Htrans| |].
      * destruct (down m) as [h|] eqn:Hdown.
        -- now apply invoke_keeps_log.
        -- now apply keeps_ret.
      * intros _. apply keeps_bind; [exact Htrans| |].
        -- intros s. eapply extends_log_one; [reflexivity | reflexivity | exact I].
        -- intros _. now apply keeps_throw.
  - intros _ s. eapply extends_log_one; [reflexivity | reflexivity | exact I].
Qed.

Lemma execute_extends_log (s : State Data) :
  extends_log (migrations (this s)) s (snd (executePendingMigrations s)).
Proof.
  set (ms := migrations (this s)).
  assert (Hreads : extends_log ms s
                     (log RetrieveAll (log RetrieveAll (with_ran true s)))).
  { split; [reflexivity|]. exists [RetrieveAll; RetrieveAll].
    split; [simpl; now rewrite <- app_assoc | repeat constructor]. }
  rewrite executePendingMigrations_eq.
  destruct (ran (this s)); [apply extends_log_refl|].
  rewrite pending_eq.
  destruct (find record_failed _); simpl; [exact Hreads|].
  match goal with
  | |- context [for_of ?pend _ ?s0] =>
      assert (Hloop : extends_log ms s0 (snd (for_of pend (@run_migration Data) s0)));
      [|destruct (List.length pend =? 0)%nat; [exact Hreads|];
        destruct (for_of pend (@run_migration Data) s0) as [[[]|err] s1]]
  end.
  - apply keeps_for_of;
      [apply extends_log_refl | apply extends_log_trans|].
    intros m Hm. apply run_migration_keeps_log.
    apply unrecorded_subset in Hm. exact Hm.
  - simpl in *. eapply extends_log_trans; [exact Hreads|].
    eapply extends_log_trans; [exact Hloop|].
    eapply extends_log_one; [reflexivity | reflexivity | exact I].
  - simpl in *. eapply extends_log_trans; [exact Hreads | exact Hloop].
Qed.

(** ** Runs in which every hook returns *)

Lemma written_ok_calls (m : Migration Data) (ts : list Tenant) :
  written (flat_map (ok_calls m) ts) = []
  /\ existsb is_down (flat_map (ok_calls m) ts) = false.
Proof.
  induction ts as [|t rest [IHw IHd]]; [now split|].
  simpl. rewrite written_app, existsb_app, IHw, IHd.
  unfold ok_calls. destruct (test m); now split.
Qed.

Lemma run_log_returned_facts (pend : list (Migration Data))
      (out : Completion unit) (l : list Call) :
  run_log pend out l ->
  out = Returned tt ->
  written l = map (fun m => mkRecord (version m) completed) pend
  /\ existsb is_down l = false.
Proof.
  induction 1 as [|m ms ts out l Hlog IH|]; intros Hout; [now split| |discriminate].
  destruct (IH Hout) as [IHw IHd].
  destruct (written_ok_calls m ts) as [Hw Hd].
  simpl. rewrite written_app, existsb_app, Hw, Hd. simpl.
  now rewrite IHw, IHd.
Qed.

Lemma run_log_threw_has_throw (pend : list (Migration Data))
      (out : Completion unit) (l : list Call) :
  run_log pend out l ->
  forall e, out = Threw e ->
  exists kind v tenantID err, In (Invoke kind v tenantID (Some err)) l.
Proof.
  induction 1 as [|m ms ts out l Hlog IH
                  |m ms ts1 t ts2 before kind err after err' Htry Hcatch];
    intros e Hout.
  - discriminate.
  - destruct (IH e Hout) as (kind & v & tenantID & err & Hin).
    exists kind, v, tenantID, err.
    right. apply in_or_app. right. now right.
  - exists kind, (version m), (tenant_id t), err.
    right. apply in_or_app. right. apply in_or_app. right. now left.
Qed.

Lemma run_log_full (ts : list Tenant) (pend : list (Migration Data))
      (out : Completion unit) (l : list Call) :
  run_log pend out l ->
  out = Returned tt ->
  (forall ts', In (IterateTenants ts') l -> ts' = ts) ->
  l = full_log ts pend.
Proof.
  induction 1 as [|m ms ts0 out l Hlog IH|]; intros Hout Hsame;
    [reflexivity| |discriminate].
  assert (Hts : ts0 = ts) by (apply Hsame; now left).
  subst ts0. unfold full_log. simpl. f_equal.
  rewrite <- app_assoc. simpl. f_equal. f_equal.
  apply IH; [exact Hout|].
  intros ts' Hin. apply Hsame. right. apply in_or_app. right. now right.
Qed.

(** A first run on a store without failed record, when no hook of a
    discovered unit ever throws: it returns, and its log has the shape of a
    completed run with every call backed. *)
Lemma returning_run (s : State Data) :
  ran (this s) = false ->
  (forall r, In r (records (mongo s)) -> record_failed r = false) ->
  (forall m, In m (migrations (this s)) -> never_throws m) ->
  exists s' new,
    executePendingMigrations s = (Returned tt, s')
    /\ calls s' = calls s ++ new
    /\ execute_log (unrecorded (records (mongo s)) (migrations (this s)))
                   (Returned tt) new
    /\ Forall (backed (migrations (this s)) (tenants (this s))) new.
Proof.
  intros Hran Hok Hnever. apply find_failed_none in Hok.
  destruct (execute_log_fresh s Hran Hok)
    as (out & s' & new & Hrun & _ & Hcalls & Hlog).
  destruct (execute_extends_log s) as (_ & new' & Hcalls' & Hbacked).
  rewrite Hrun in Hcalls'. simpl in Hcalls'.
  assert (Hsame : new' = new).
  { rewrite Hcalls in Hcalls'. now apply app_inv_head in Hcalls'. }
  subst new'.
  destruct out as [[]|err].
  - exists s', new. now repeat split.
  - exfalso. inversion Hlog as [| |l err0 Hrunlog Hout Hnew]. subst.
    destruct (run_log_threw_has_throw Hrunlog eq_refl)
      as (kind & v & tenantID & err0 & Hin).
    rewrite Forall_forall in Hbacked.
    assert (Hb : backed (migrations (this s)) (tenants (this s))
                        (Invoke kind v tenantID (Some err0))).
    { apply Hbacked. right; right. exact Hin. }
    destruct Hb as (m & h & db & Hm & _ & Hh & Hthrown).
    rewrite (Hnever m Hm kind h db tenantID Hh) in Hthrown. discriminate.
Qed.

(** X2 (success): on an instance that has not run, with no failed record
    stored and units whose hooks never throw, [executePendingMigrations]
    returns; its create calls are one completed record per pending unit,
    in pending order, and nothing else; [down] is never invoked. *)
Theorem run_completes_when_hooks_return (s : State Data) :
  ran (this s) = false ->
  (forall r, In r (records (mongo s)) -> record_failed r = false) ->
  (forall m, In m (migrations (this s)) -> never_throws m) ->
  exists s' new,
    executePendingMigrations s = (Returned tt, s')
    /\ calls s' = calls s ++ new
    /\ written new
       = map (fun m => mkRecord (version m) completed)
             (unrecorded (records (mongo s)) (migrations (this s)))
    /\ existsb is_down new = false.
Proof.
  intros Hran Hok Hnever.
  destruct (returning_run s Hran Hok Hnever)
    as (s' & new & Hrun & Hcalls & Hlog & _).
  exists s', new. split; [exact Hrun|]. split; [exact Hcalls|].
  inversion Hlog as [Hpend Hnew|l Hpend Hrunlog Hnew|].
  - rewrite Hpend. now split.
  - destruct (run_log_returned_facts Hrunlog eq_refl) as [Hw Hd].
    simpl. rewrite written_app, existsb_app, Hw, Hd. simpl.
    now rewrite app_nil_r.
Qed.

(** X3 (cross product): if moreover the tenant source yields the same
    tenants [ts] whenever it is asked, the log of the run is exactly: two
    reads; then for each pending unit in order, the iteration of the source,
    [up] (and [test] when exposed) for each tenant in order, and the
    completed record; then, unless nothing was pending, a last read. *)
Theorem constant_source_log (s : State Data) (ts : list Tenant) :
  ran (this s) = false ->
  (forall r, In r (records (mongo s)) -> record_failed r = false) ->
  (forall m, In m (migrations (this s)) -> never_throws m) ->
  (forall db, tenants (this s) db = ts) ->
  exists s',
    executePendingMigrations s = (Returned tt, s')
    /\ calls s'
       = calls s
         ++ RetrieveAll :: RetrieveAll
         :: full_log ts (unrecorded (records (mongo s)) (migrations (this s)))
         ++ match unrecorded (records (mongo s)) (migrations (this s)) with
            | [] => []
            | _ :: _ => [RetrieveAll]
            end.
Proof.
  intros Hran Hok Hnever Hconstant.
  destruct (returning_run s Hran Hok Hnever)
    as (s' & new & Hrun & Hcalls & Hlog & Hbacked).
  exists s'. split; [exact Hrun|]. rewrite Hcalls. f_equal.
  inversion Hlog as [Hpend Hnew|l Hpend Hrunlog Hnew|].
  - rewrite Hpend. reflexivity.
  - subst new.
    assert (Hfull : l = full_log ts (unrecorded (records (mongo s))
                                               (migrations (this s)))).
    { apply (run_log_full Hrunlog eq_refl).
      intros ts' Hin. rewrite Forall_forall in Hbacked.
      assert (Hb : backed (migrations (this s)) (tenants (this s))
                          (IterateTenants ts')).
      { apply Hbacked. right; right. apply in_or_app. now left. }
      destruct Hb as (db & Hdb). now rewrite Hconstant in Hdb. }
    rewrite <- Hfull.
    destruct (unrecorded (records (mongo s)) (migrations (this s)));
      [congruence | reflexivity].
Qed.

(** ** Starting again on the store a run left behind *)

Lemma unrecorded_nil (stored : list MigrationRecord)
      (discovered : list (Migration Data)) :
  (forall m, In m discovered ->
             exists r, In r stored /\ record_version r = version m) ->
  unrecorded stored discovered = [].
Proof.
  intros Hall. destruct (unrecorded stored discovered) as [|m rest] eqn:E;
    [reflexivity|].
  assert (Hin : In m (unrecorded stored discovered)) by (rewrite E; now left).
  apply unrecorded_In in Hin as [Hm Hno].
  destruct (Hall m Hm) as (r & Hr & Hv). now apply Hno in Hr.
Qed.

Lemma recorded_or_pending (stored : list MigrationRecord)
      (discovered : list (Migration Data)) (m : Migration Data) :
  In m discovered ->
  (exists r, In r stored /\ record_version r = version m)
  \/ In m (unrecorded stored discovered).
Proof.
  intros Hm.
  destruct (existsb (N.eqb (version m)) (map record_version stored)) eqn:Hex.
  - left. apply existsb_exists in Hex as (v & Hv & Heq).
    apply in_map_iff in Hv as (r & Hr & Hin). apply N.eqb_eq in Heq.
    exists r. split; [exact Hin | congruence].
  - right. unfold unrecorded. apply filter_In. split; [exact Hm|].
    now rewrite Hex.
Qed.

Lemma noop_when_all_recorded (s : State Data) :
  ran (this s) = false ->
  (forall r, In r (records (mongo s)) -> record_failed r = false) ->
  (forall m, In m (migrations (this s)) ->
             exists r, In r (records (mongo s)) /\ record_version r = version m) ->
  executePendingMigrations s
  = (Returned tt, log RetrieveAll (log RetrieveAll (with_ran true s))).
Proof.
  intros Hran Hok Hall. apply find_failed_none in Hok.
  rewrite executePendingMigrations_eq, Hran, pending_eq. simpl.
  now rewrite Hok, (unrecorded_nil _ _ Hall).
Qed.

(** X4 (nothing pending): when every discovered unit already has a record
    and none is failed, [executePendingMigrations] on an instance that has
    not run returns after its two reads: no hook, no tenant iteration, no
    write, the database as it was. *)
Theorem nothing_pending_is_noop (s : State Data) :
  ran (this s) = false ->
  (forall r, In r (records (mongo s)) -> record_failed r = false) ->
  (forall m, In m (migrations (this s)) ->
             exists r, In r (records (mongo s)) /\ record_version r = version m) ->
  exists s',
    executePendingMigrations s = (Returned tt, s')
    /\ mongo s' = mongo s
    /\ calls s' = calls s ++ [RetrieveAll; RetrieveAll].
Proof.
  intros Hran Hok Hall. eexists. split; [now apply noop_when_all_recorded|].
  simpl. split; [reflexivity | now rewrite <- app_assoc].
Qed.

Lemma execute_log_returned_written (pend : list (Migration Data))
      (new : list Call) :
  execute_log pend (Returned tt) new ->
  written new = map (fun m => mkRecord (version m) completed) pend.
Proof.
  intros Hlog. inversion Hlog as [Hpend Hnew|l Hpend Hrunlog Hnew|].
  - now rewrite Hpend.
  - destruct (run_log_returned_facts Hrunlog eq_refl) as [Hw _].
    simpl. rewrite written_app, Hw. simpl. now rewrite app_nil_r.
Qed.

Lemma newManager_In (tenantCache : TenantCache Data)
      (discovered : list (Migration Data)) (m : Migration Data) :
  In m (migrations (newManager tenantCache discovered)) <-> In m discovered.
Proof.
  simpl. split; intros H.
  - eapply Permutation_in; [apply Permutation_sym, array_sort_permutation|exact H].
  - eapply Permutation_in; [apply array_sort_permutation|exact H].
Qed.

Lemma fresh_failed_stops (tenantCache : TenantCache Data)
      (discovered : list (Migration Data)) (db : Db Data) (r : MigrationRecord) :
  find record_failed (records db) = Some r ->
  executePendingMigrations (fresh tenantCache discovered db)
  = (Threw (FailedMigrationDetectedError r),
     mkState (mkManager (migrations (newManager tenantCache discovered))
                        tenantCache true)
             db [RetrieveAll; RetrieveAll]).
Proof.
  intros Hfind. rewrite executePendingMigrations_eq, pending_eq. simpl.
  now rewrite Hfind.
Qed.

(** What a first run that returned leaves in the store. *)
Lemma store_after_success (tenantCache : TenantCache Data)
      (discovered : list (Migration Data)) (db : Db Data) :
  (forall m, In m discovered -> hooks_keep_records m) ->
  fst (executePendingMigrations (fresh tenantCache discovered db)) = Returned tt ->
  find record_failed (records db) = None
  /\ records (mongo (snd (executePendingMigrations (fresh tenantCache discovered db))))
     = records db
       ++ map (fun m => mkRecord (version m) completed)
              (unrecorded (records db)
                          (migrations (newManager tenantCache discovered))).
Proof.
  intros Hkeep Hreturned.
  destruct (find record_failed (records db)) as [r|] eqn:Hfind.
  { rewrite (fresh_failed_stops tenantCache discovered db Hfind) in Hreturned.
    discriminate. }
  split; [reflexivity|].
  destruct (@execute_log_fresh Data (fresh tenantCache discovered db) eq_refl Hfind)
    as (out & s' & new & Hrun & _ & Hcalls & Hlog).
  destruct (@enter_extends_store ExecutePending (fresh tenantCache discovered db))
    as (new' & Hcalls' & Hrecords).
  { intros m Hm. apply Hkeep. now apply newManager_In in Hm. }
  simpl enter in Hcalls', Hrecords.
  rewrite Hrun in *. simpl in Hreturned, Hcalls, Hcalls', Hrecords, Hlog.
  subst out. rewrite Hcalls in Hcalls'. subst new'.
  simpl. rewrite Hrecords. f_equal. now apply execute_log_returned_written.
Qed.

(** X5 (resumability): once a first run has returned, a manager built
    later on the same discovered units (a new process, say) and started on
    the store that run left finds nothing pending: it returns after two
    reads without calling a hook or writing a record.  The hooks are
    assumed to leave the migration records alone. *)
Theorem rerun_after_success_is_noop
        (tenantCache tenantCache' : TenantCache Data)
        (discovered : list (Migration Data)) (db : Db Data) :
  (forall m, In m discovered -> hooks_keep_records m) ->
  fst (executePendingMigrations (fresh tenantCache discovered db)) = Returned tt ->
  exists s',
    executePendingMigrations
      (fresh tenantCache' discovered
             (mongo (snd (executePendingMigrations (fresh tenantCache discovered db)))))
    = (Returned tt, s')
    /\ mongo s'
       = mongo (snd (executePendingMigrations (fresh tenantCache discovered db)))
    /\ calls s' = [RetrieveAll; RetrieveAll].
Proof.
  intros Hkeep Hreturned.
  destruct (@store_after_success tenantCache discovered db Hkeep Hreturned)
    as [Hfind Hstore].
  set (db' := mongo (snd (executePendingMigrations (fresh tenantCache discovered db))))
    in *.
  eexists. split; [apply noop_when_all_recorded|now split].
  - reflexivity.
  - simpl. rewrite Hstore. intros r Hr. apply in_app_or in Hr as [Hr|Hr].
    + eapply find_failed_none; eassumption.
    + apply in_map_iff in Hr as (m & <- & _). reflexivity.
  - intros m Hm. cbn [this mongo fresh] in *. rewrite Hstore.
    apply newManager_In in Hm.
    apply (newManager_In tenantCache) in Hm.
    destruct (recorded_or_pending (records db) _ _ Hm) as [(r & Hr & Hv)|Hpend].
    + exists r. split; [apply in_or_app; now left | exact Hv].
    + exists (mkRecord (version m) completed).
      split; [|reflexivity]. apply in_or_app. right.
      now apply (in_map (fun m0 => mkRecord (version m0) completed)).
Qed.

Lemma find_app_none {A} (f : A -> bool) (l l' : list A) :
  find f l = None -> find f (l ++ l') = find f l'.
Proof.
  induction l as [|a rest IH]; intros H; [reflexivity|].
  simpl in *. destruct (f a); [discriminate | now apply IH].
Qed.

Lemma ok_calls_no_failed_write (m : Migration Data) (ts : list Tenant) (v : N) :
  ~ In (CreateFailedRecord v) (flat_map (ok_calls m) ts).
Proof.
  intros Hin. apply ok_calls_returned in Hin as (kind & t & _ & _ & Heq).
  discriminate.
Qed.

(** The failed record of an aborted loop is the first failed record among
    the records the loop wrote. *)
Lemma run_log_failed_written (pend : list (Migration Data))
      (out : Completion unit) (l : list Call) :
  run_log pend out l ->
  forall v, In (CreateFailedRecord v) l ->
            find record_failed (written l) = Some (mkRecord v failed).
Proof.
  induction 1 as [|m ms ts out l Hlog IH
                  |m ms ts1 t ts2 before kind err after err' Htry Hcatch];
    intros v Hin.
  - destruct Hin.
  - destruct (written_ok_calls m ts) as [Hw _].
    simpl. rewrite written_app, Hw. simpl. apply IH.
    destruct Hin as [Hin|Hin]; [discriminate|].
    apply in_app_or in Hin as [Hin|[Hin|Hin]];
      [now apply ok_calls_no_failed_write in Hin | discriminate | exact Hin].
  - destruct (written_ok_calls m ts1) as [Hw _].
    simpl. rewrite !written_app, Hw. simpl.
    assert (Hbefore : written before = [] /\ ~ In (CreateFailedRecord v) before).
    { destruct Htry; (split; [reflexivity|]); simpl; intros Hcontra.
      - exact Hcontra.
      - destruct Hcontra as [Hcontra|[]]. discriminate. }
    destruct Hbefore as [Hwb Hnb]. rewrite Hwb. simpl.
    destruct Hin as [Hin|Hin]; [discriminate|].
    apply in_app_or in Hin as [Hin|Hin];
      [now apply ok_calls_no_failed_write in Hin|].
    apply in_app_or in Hin as [Hin|[Hin|Hin]];
      [contradiction | discriminate|].
    destruct Hcatch; simpl in *.
    + destruct Hin as [Hin|[]]. now injection Hin as <-.
    + destruct Hin as [Hin|[Hin|[]]]; [discriminate|]. now injection Hin as <-.
    + destruct Hin as [Hin|[]]. discriminate.
Qed.

(** X6 (tripwire): if the first run of a manager wrote a failed record
    for version [v], then any manager started later on the store that run
    left, whatever units and tenants it has, throws
    [FailedMigrationDetectedError] for exactly that record after two reads,
    and calls no hook.  The hooks are assumed to leave the migration
    records alone. *)
Theorem failed_record_trips_next_start
        (tenantCache tenantCache' : TenantCache Data)
        (discovered discovered' : list (Migration Data)) (db : Db Data) (v : N) :
  (forall m, In m discovered -> hooks_keep_records m) ->
  In (CreateFailedRecord v)
     (calls (snd (executePendingMigrations (fresh tenantCache discovered db)))) ->
  exists s',
    executePendingMigrations
      (fresh tenantCache' discovered'
             (mongo (snd (executePendingMigrations (fresh tenantCache discovered db)))))
    = (Threw (FailedMigrationDetectedError (mkRecord v failed)), s')
    /\ mongo s'
       = mongo (snd (executePendingMigrations (fresh tenantCache discovered db)))
    /\ calls s' = [RetrieveAll; RetrieveAll].
Proof.
  intros Hkeep Hin.
  destruct (find record_failed (records db)) as [r|] eqn:Hfind.
  { rewrite (fresh_failed_stops tenantCache discovered db Hfind) in Hin.
    simpl in Hin. destruct Hin as [H|[H|[]]]; discriminate. }
  destruct (@enter_extends_store ExecutePending (fresh tenantCache discovered db))
    as (new' & Hcalls' & Hrecords).
  { intros m Hm. apply Hkeep. now apply newManager_In in Hm. }
  destruct (fresh_run_log tenantCache discovered db)
    as (l & w2 & Hcalls & Hw2 & _ & Hshape).
  simpl enter in Hcalls', Hrecords. simpl in Hcalls'.
  assert (Hwritten : find record_failed (written new') = Some (mkRecord v failed)).
  { rewrite <- Hcalls', Hcalls, !written_app.
    assert (Hw2nil : written w2 = [] /\ ~ In (CreateFailedRecord v) w2).
    { clear -Hw2. induction Hw2 as [|c rest Hc _ [IHw IHn]]; [now split|].
      destruct c; try discriminate. split; [exact IHw|].
      intros [H|H]; [discriminate | contradiction]. }
    destruct Hw2nil as [Hw2nil Hnot]. rewrite Hw2nil, app_nil_r. simpl.
    rewrite Hcalls in Hin.
    destruct Hin as [Hin|[Hin|Hin]]; [discriminate | discriminate|].
    simpl in Hin. apply in_app_or in Hin as [Hin|Hin]; [|contradiction].
    destruct Hshape as [(r & Hnil & _)|Hlog].
    - rewrite Hnil in Hin. destruct Hin.
    - now apply (run_log_failed_written Hlog). }
  eexists. split; [apply fresh_failed_stops|now split].
  rewrite Hrecords. simpl. now rewrite (find_app_none _ _ _ Hfind).
Qed.

(** X7 (no second application): in the first run of a fresh manager, a
    hook is only ever invoked for the version of a discovered unit that no
    stored record carries; units already completed, skipped or failed are
    never run again. *)
Theorem recorded_units_never_run
        (tenantCache : TenantCache Data) (discovered : list (Migration Data))
        (db : Db Data) (kind : HookKind) (v : N) (tenantID : string)
        (thrown : option Thrown) :
  In (Invoke kind v tenantID thrown)
     (calls (snd (executePendingMigrations (fresh tenantCache discovered db)))) ->
  (exists m, In m discovered /\ version m = v)
  /\ forall r, In r (records db) -> record_version r <> v.
Proof.
  intros Hin. apply in_split in Hin as (pre & post & Heq).
  destruct (fresh_run_log tenantCache discovered db)
    as (l & w2 & Hcalls & Hw2 & _ & Hshape).
  rewrite Hcalls in Heq.
  apply frame_split in Heq as (pre' & post' & _ & _ & Hl);
    [|apply two_reads | exact Hw2 | reflexivity].
  destruct Hshape as [(r & Hnil & _)|Hlog].
  { rewrite Hnil in Hl. now destruct pre'. }
  destruct (@run_log_hook Data _ _ _ Hlog pre' post' kind v tenantID thrown Hl)
    as (i & m & Hnth & Hv & _).
  apply nth_error_In in Hnth. apply unrecorded_In in Hnth as [Hm Hno].
  split.
  - exists m. split; [now apply newManager_In in Hm | exact Hv].
  - intros r Hr. rewrite <- Hv. now apply Hno.
Qed.

(** ** When [down] runs *)

Lemma no_down_absurd (l pre post : list Call) (y : Call) :
  existsb is_down l = false -> l = pre ++ y :: post -> is_down y = true -> False.
Proof.
  intros Hnone -> Hy. rewrite existsb_app in Hnone. simpl in Hnone.
  rewrite Hy, orb_true_r in Hnone. discriminate.
Qed.

Lemma run_log_down (pend : list (Migration Data)) (out : Completion unit)
      (l : list Call) :
  run_log pend out l ->
  forall pre post v tenantID thrown,
    l = pre ++ Invoke Down v tenantID thrown :: post ->
    exists pre0 kind err,
      kind <> Down
      /\ pre = pre0 ++ [Invoke kind v tenantID (Some err)]
      /\ ((thrown = None /\ post = [CreateFailedRecord v] /\ out = Threw err)
          \/ (exists err', thrown = Some err' /\ post = [] /\ out = Threw err')).
Proof.
  induction 1 as [|m ms ts out l Hlog IH
                  |m ms ts1 t ts2 before kind err after err' Htry Hcatch];
    intros pre post v tenantID thrown Heq.
  - now destruct pre.
  - change ((IterateTenants ts :: flat_map (ok_calls m) ts)
              ++ CreateRecord (version m) :: l
            = pre ++ Invoke Down v tenantID thrown :: post) in Heq.
    apply app_cons_split in Heq
      as [(Hpre & Hx & Hpost)|[(mid & Hin & Hpost)|(mid & Hpre & Hrest)]].
    + discriminate.
    + exfalso. eapply no_down_absurd; [|exact Hin|reflexivity].
      simpl. apply written_ok_calls.
    + destruct (IH mid post v tenantID thrown Hrest)
        as (pre0 & kind & err & Hkind & Hmid & Hend).
      exists ((IterateTenants ts :: flat_map (ok_calls m) ts)
                ++ CreateRecord (version m) :: pre0), kind, err.
      split; [exact Hkind|]. split; [|exact Hend].
      rewrite Hpre, Hmid, <- app_assoc. reflexivity.
  - destruct (try_log_block Htry) as [_ Hkind].
    rewrite app_comm_cons, app_assoc in Heq.
    apply app_cons_split in Heq
      as [(Hpre & Hx & Hpost)|[(mid & Hin & Hpost)|(mid & Hpre & Hrest)]].
    + injection Hx as Hk _ _ _. congruence.
    + exfalso. eapply no_down_absurd; [|exact Hin|reflexivity].
      simpl. rewrite existsb_app.
      destruct (written_ok_calls m ts1) as [_ Hd]. rewrite Hd.
      destruct Htry; reflexivity.
    + exists (IterateTenants (ts1 ++ t :: ts2)
                :: flat_map (ok_calls m) ts1 ++ before), kind, err.
      split; [exact Hkind|].
      destruct Hcatch as [Hnone|d Hdown|d err2 Hdown].
      * destruct mid as [|c [|c' mid]]; discriminate.
      * destruct mid as [|c [|c' mid]]; try discriminate.
        -- injection Hrest as Hv Ht Hthrown Hpost. subst.
           split; [reflexivity|]. left. now repeat split.
        -- destruct mid; discriminate.
      * destruct mid as [|c [|c' mid]]; try discriminate.
        injection Hrest as Hv Ht Hthrown Hpost. subst.
        split; [reflexivity|]. right. exists err2. now repeat split.
Qed.

(** X8 (rollback): in the first run of a fresh manager, [down] is only
    ever invoked right after an [up] or [test] of the same unit threw for
    the same tenant, and it is the last hook of the run: if it returns, the
    failed record of that version follows and the run throws the original
    error; if it throws, the run ends there with the error of [down]. *)
Theorem down_only_after_failure
        (tenantCache : TenantCache Data) (discovered : list (Migration Data))
        (db : Db Data) (pre post : list Call) (v : N) (tenantID : string)
        (thrown : option Thrown) :
  calls (snd (executePendingMigrations (fresh tenantCache discovered db)))
  = pre ++ Invoke Down v tenantID thrown :: post ->
  exists pre0 kind err,
    kind <> Down
    /\ pre = pre0 ++ [Invoke kind v tenantID (Some err)]
    /\ ((thrown = None /\ post = [CreateFailedRecord v]
         /\ fst (executePendingMigrations (fresh tenantCache discovered db))
            = Threw err)
        \/ (exists err',
              thrown = Some err' /\ post = []
              /\ fst (executePendingMigrations (fresh tenantCache discovered db))
                 = Threw err')).
Proof.
  intros Heq.
  destruct (fresh_run_log tenantCache discovered db)
    as (l & w2 & Hcalls & Hw2 & Hthrew & Hshape).
  rewrite Hcalls in Heq.
  apply frame_split in Heq as (pre' & post' & Hpre & Hpost & Hl);
    [|apply two_reads | exact Hw2 | reflexivity].
  destruct Hshape as [(r & Hnil & _)|Hlog].
  { rewrite Hnil in Hl. now destruct pre'. }
  destruct (@run_log_down _ _ _ Hlog pre' post' v tenantID thrown Hl)
    as (pre0 & kind & err & Hkind & Hpre' & Hend).
  exists ([RetrieveAll; RetrieveAll] ++ pre0), kind, err.
  split; [exact Hkind|].
  split; [now rewrite Hpre, Hpre', <- app_assoc|].
  destruct Hend as [(Hthrown & Hp & Hout)|(err' & Hthrown & Hp & Hout)].
  - left. rewrite Hpost, (Hthrew _ Hout), app_nil_r. now repeat split.
  - right. exists err'. rewrite Hpost, (Hthrew _ Hout), app_nil_r.
    now repeat split.
Qed.

(** ** [currentMigration] *)

(** X9 (current migration): [currentMigration] reads the store once,
    changes nothing, and answers the record stored last, or nothing when
    the store is empty. *)
Theorem currentMigration_is_last (s : State Data) :
  exists result,
    currentMigration s = (Returned result, log RetrieveAll s)
    /\ (records (mongo s) = [] -> result = None)
    /\ (forall earlier r, records (mongo s) = earlier ++ [r] -> result = Some r).
Proof.
  eexists. split; [apply currentMigration_eq|]. split.
  - intros H. now rewrite H.
  - intros earlier r H. rewrite H, length_app. simpl.
    replace (List.length earlier + 1 - 1)%nat with (List.length earlier) by lia.
    replace (0 <? List.length earlier + 1)%nat with true
      by (symmetry; apply Nat.ltb_lt; lia).
    rewrite nth_error_app2 by lia. now rewrite Nat.sub_diag.
Qed.

(** ** After a skip *)

(** X10 (skip, then start): after [skipPendingMigrations] has returned on
    a fresh manager, a manager built later on the same discovered units and
    started on the store the skip left finds nothing pending: it returns
    after two reads, calls no hook and writes nothing. *)
Theorem nothing_pending_after_skip
        (tenantCache tenantCache' : TenantCache Data)
        (discovered : list (Migration Data)) (db : Db Data) :
  fst (skipPendingMigrations (fresh tenantCache discovered db)) = Returned tt ->
  exists s',
    executePendingMigrations
      (fresh tenantCache' discovered
             (mongo (snd (skipPendingMigrations (fresh tenantCache discovered db)))))
    = (Returned tt, s')
    /\ mongo s'
       = mongo (snd (skipPendingMigrations (fresh tenantCache discovered db)))
    /\ calls s' = [RetrieveAll; RetrieveAll].
Proof.
  intros Hreturned.
  assert (Hstore :
            records (mongo (snd (skipPendingMigrations
                                   (fresh tenantCache discovered db))))
            = map (fun m => mkRecord (version m) skipped)
                  (migrations (newManager tenantCache discovered))).
  { revert Hreturned. rewrite skipPendingMigrations_eq. simpl ran. cbv iota.
    destruct (records db) as [|r0 rest] eqn:Hdb.
    - rewrite currentMigration_empty by exact Hdb. simpl. intros _.
      now rewrite Hdb, map_map.
    - destruct (@currentMigration_nonempty Data
                  (with_ran true (fresh tenantCache discovered db)))
        as (r & _ & Hcur).
      { simpl. rewrite Hdb. discriminate. }
      rewrite Hcur. discriminate. }
  eexists. split; [apply noop_when_all_recorded|now split].
  - reflexivity.
  - simpl mongo. rewrite Hstore. intros r Hr.
    apply in_map_iff in Hr as (m & <- & _). reflexivity.
  - simpl mongo. simpl this. rewrite Hstore. intros m Hm.
    exists (mkRecord (version m) skipped). split; [|reflexivity].
    now apply (in_map (fun m0 => mkRecord (version m0) skipped)).
Qed.

End Coverage.

(** * The constructor: discovery of the migration files *)

(** ** The backtracking matcher *)

Section Matcher.

Lemma greedy_sound (p : ascii -> bool)
      (k : list ascii -> option (list (list ascii))) (s acc : list ascii)
      (parts : list (list ascii)) :
  greedy p k s acc = Some parts ->
  exists more rest ps,
    s = more ++ rest
    /\ forallb p more = true
    /\ k rest = Some ps
    /\ parts = (acc ++ more) :: ps.
Proof.
  revert acc. induction s as [|c s IH]; intros acc Hrun; simpl in Hrun.
  - destruct (k []) as [ps|] eqn:Hk; [|discriminate].
    injection Hrun as <-. exists [], [], ps. simpl. rewrite app_nil_r.
    now repeat split.
  - assert (Hstop : option_map (cons acc) (k (c :: s)) = Some parts ->
                    exists more rest ps,
                      c :: s = more ++ rest /\ forallb p more = true
                      /\ k rest = Some ps /\ parts = (acc ++ more) :: ps).
    { intros H. destruct (k (c :: s)) as [ps|] eqn:Hk; [|discriminate].
      injection H as <-. exists [], (c :: s), ps. simpl. rewrite app_nil_r.
      now repeat split. }
    destruct (p c) eqn:Hp; [|now apply Hstop].
    destruct (greedy p k s (acc ++ [c])) as [parts'|] eqn:Hmore;
      [|now apply Hstop].
    injection Hrun as <-.
    destruct (IH _ Hmore) as (more & rest & ps & Hs & Hall & Hk & Hparts).
    exists (c :: more), rest, ps. simpl. rewrite Hp, Hall, Hs, Hparts.
    now rewrite <- app_assoc.
Qed.

Lemma match_items_sound (items : list Item) (s : list ascii)
      (parts : list (list ascii)) :
  match_items items s = Some parts ->
  s = List.concat parts /\ Forall2 conforms items parts.
Proof.
  revert s parts. induction items as [|item items IH]; intros s parts Hrun.
  - destruct s; [|discriminate]. injection Hrun as <-. now split.
  - destruct item as [p|p]; simpl in Hrun;
      destruct s as [|c rest]; try discriminate;
      destruct (p c) eqn:Hp; try discriminate.
    + destruct (match_items items rest) as [ps|] eqn:Hrest; [|discriminate].
      injection Hrun as <-. destruct (IH _ _ Hrest) as [Hconcat Hconf].
      split; [simpl; now rewrite Hconcat|].
      constructor; [now exists c | exact Hconf].
    + apply greedy_sound in Hrun as (more & rest' & ps & Hs & Hall & Hk & ->).
      destruct (IH _ _ Hk) as [Hconcat Hconf].
      split; [simpl; now rewrite Hs, Hconcat|].
      constructor; [|exact Hconf]. simpl. split; [discriminate|].
      now rewrite Hp, Hall.
Qed.

Lemma greedy_complete (p : ascii -> bool)
      (k : list ascii -> option (list (list ascii))) (more rest acc : list ascii) :
  forallb p more = true -> k rest <> None ->
  greedy p k (more ++ rest) acc <> None.
Proof.
  revert acc. induction more as [|c more IH]; intros acc Hall Hk; simpl.
  - assert (Hstop : option_map (cons acc) (k rest) <> None)
      by (destruct (k rest); [discriminate | congruence]).
    destruct rest as [|c rest']; simpl; [exact Hstop|].
    destruct (p c); [|exact Hstop].
    destruct (greedy p k rest' (acc ++ [c])); [discriminate | exact Hstop].
  - simpl in Hall. apply andb_true_iff in Hall as [Hp Hall]. rewrite Hp.
    specialize (IH (acc ++ [c]) Hall Hk).
    destruct (greedy p k (more ++ rest) (acc ++ [c])); [discriminate | congruence].
Qed.

Lemma match_items_complete (items : list Item) (parts : list (list ascii)) :
  Forall2 conforms items parts -> match_items items (List.concat parts) <> None.
Proof.
  induction 1 as [|item part items parts Hconf _ IH]; [discriminate|].
  destruct item as [p|p]; simpl in Hconf.
  - destruct Hconf as (c & -> & Hp). simpl. rewrite Hp.
    destruct (match_items items (List.concat parts)); [discriminate | congruence].
  - destruct Hconf as [Hne Hall]. destruct part as [|c more]; [congruence|].
    simpl in Hall. apply andb_true_iff in Hall as [Hp Hall].
    simpl. rewrite Hp. now apply greedy_complete.
Qed.

(** ** The file name pattern *)

Lemma digits_then_underscore (d d' x x' : list ascii) :
  forallb is_digit d = true -> forallb is_digit d' = true ->
  d ++ "_"%char :: x = d' ++ "_"%char :: x' ->
  d = d' /\ x = x'.
Proof.
  revert d'. induction d as [|c d IH]; intros d' Hd Hd' Heq.
  - destruct d' as [|c' d']; simpl in Heq.
    + injection Heq as Hx. now split.
    + injection Heq as Hc _. subst c'. simpl in Hd'. discriminate.
  - destruct d' as [|c' d']; simpl in Heq.
    + injection Heq as Hc _. subst c. simpl in Hd. discriminate.
    + injection Heq as Hc Hrest. subst c'. simpl in Hd, Hd'.
      apply andb_true_iff in Hd as [_ Hd].
      apply andb_true_iff in Hd' as [_ Hd'].
      destruct (IH d' Hd Hd' Hrest) as [-> ->]. now split.
Qed.

Lemma three_from_the_end {A} (l l' : list A) (a b c a' b' c' : A) :
  l ++ [a; b; c] = l' ++ [a'; b'; c'] ->
  l = l' /\ a = a' /\ b = b' /\ c = c'.
Proof.
  intros Heq.
  change (l ++ [a; b; c]) with (l ++ [a] ++ [b] ++ [c]) in Heq.
  change (l' ++ [a'; b'; c']) with (l' ++ [a'] ++ [b'] ++ [c']) in Heq.
  rewrite !app_assoc in Heq.
  apply app_inj_tail in Heq as [Heq ->].
  apply app_inj_tail in Heq as [Heq ->].
  apply app_inj_tail in Heq as [-> ->]. now repeat split.
Qed.

(** The parts of a match of the pattern. *)
Lemma pattern_parts (s : list ascii) (parts : list (list ascii)) :
  match_items fileNamePattern s = Some parts ->
  exists digits body ext,
    parts = [digits; ["_"%char]; body; ["."%char]; [ext]; ["s"%char]]
    /\ s = digits ++ "_"%char :: body ++ ["."%char; ext; "s"%char]
    /\ digits <> [] /\ forallb is_digit digits = true
    /\ body <> [] /\ forallb is_name_char body = true
    /\ (ext = "t"%char \/ ext = "j"%char).
Proof.
  intros Hrun. apply match_items_sound in Hrun as [Hconcat Hconf].
  unfold fileNamePattern in Hconf.
  inversion Hconf as [|i1 digits is1 ps1 K1 H1]; subst.
  inversion H1 as [|i2 u is2 ps2 K2 H2]; subst.
  inversion H2 as [|i3 body is3 ps3 K3 H3]; subst.
  inversion H3 as [|i4 dot is4 ps4 K4 H4]; subst.
  inversion H4 as [|i5 e is5 ps5 K5 H5]; subst.
  inversion H5 as [|i6 last is6 ps6 K6 H6]; subst.
  inversion H6; subst.
  unfold conforms in K1, K2, K3, K4, K5, K6.
  destruct K1 as [Hd1 Hd2]. destruct K3 as [Hb1 Hb2].
  destruct K2 as (c2 & -> & Hc2). destruct K4 as (c4 & -> & Hc4).
  destruct K5 as (ext & -> & Hext). destruct K6 as (c6 & -> & Hc6).
  apply Ascii.eqb_eq in Hc2, Hc4, Hc6. subst.
  exists digits, body, ext. simpl.
  repeat split; try assumption.
  apply orb_true_iff in Hext as [H|H]; apply Ascii.eqb_eq in H; auto.
Qed.

Lemma pattern_accepts (s digits body : list ascii) (ext : ascii) :
  s = digits ++ "_"%char :: body ++ ["."%char; ext; "s"%char] ->
  digits <> [] -> forallb is_digit digits = true ->
  body <> [] -> forallb is_name_char body = true ->
  ext = "t"%char \/ ext = "j"%char ->
  match_items fileNamePattern s
  = Some [digits; ["_"%char]; body; ["."%char]; [ext]; ["s"%char]].
Proof.
  intros Hs Hd1 Hd2 Hb1 Hb2 Hext.
  assert (Hconf : Forall2 conforms fileNamePattern
                          [digits; ["_"%char]; body; ["."%char]; [ext]; ["s"%char]]).
  { repeat constructor; simpl; try assumption.
    - now exists "_"%char.
    - now exists "."%char.
    - exists ext. split; [reflexivity|]. destruct Hext; subst; reflexivity.
    - now exists "s"%char. }
  apply match_items_complete in Hconf. simpl List.concat in Hconf.
  rewrite <- Hs in Hconf.
  destruct (match_items fileNamePattern s) as [parts|] eqn:Hrun; [|congruence].
  destruct (pattern_parts _ Hrun)
    as (digits' & body' & ext' & -> & Hs' & _ & Hd' & _ & _ & _).
  rewrite Hs in Hs'.
  apply digits_then_underscore in Hs' as [<- Hrest]; [|assumption..].
  apply three_from_the_end in Hrest as (<- & _ & <- & _). reflexivity.
Qed.

(** X11 (file name pattern): the pattern accepts exactly the names made of
    a non-empty run of digits, an underscore, a non-empty run of characters
    that are not white space, and the extension [.ts] or [.js]; the first
    capture is then the whole leading run of digits and the second the part
    between the first underscore and the extension. *)
Theorem pattern_accepts_exactly (fileName : string) :
  (pattern_test fileName = true <->
   exists digits body ext,
     list_ascii_of_string fileName
     = digits ++ "_"%char :: body ++ ["."%char; ext; "s"%char]
     /\ digits <> [] /\ forallb is_digit digits = true
     /\ body <> [] /\ forallb is_name_char body = true
     /\ (ext = "t"%char \/ ext = "j"%char))
  /\ (forall digits body ext,
         list_ascii_of_string fileName
         = digits ++ "_"%char :: body ++ ["."%char; ext; "s"%char] ->
         digits <> [] -> forallb is_digit digits = true ->
         body <> [] -> forallb is_name_char body = true ->
         ext = "t"%char \/ ext = "j"%char ->
         pattern_exec fileName
         = Some [fileName; string_of_list_ascii digits;
                 string_of_list_ascii body]).
Proof.
  split; [split|].
  - unfold pattern_test, pattern_exec. intros Htest.
    destruct (match_items fileNamePattern (list_ascii_of_string fileName))
      as [parts|] eqn:Hrun; [|discriminate].
    destruct (pattern_parts _ Hrun) as (digits & body & ext & _ & Hs & Hrest).
    now exists digits, body, ext.
  - intros (digits & body & ext & Hs & Hd1 & Hd2 & Hb1 & Hb2 & Hext).
    unfold pattern_test, pattern_exec.
    now rewrite (pattern_accepts Hs Hd1 Hd2 Hb1 Hb2 Hext).
  - intros digits body ext Hs Hd1 Hd2 Hb1 Hb2 Hext.
    unfold pattern_exec.
    now rewrite (pattern_accepts Hs Hd1 Hd2 Hb1 Hb2 Hext).
Qed.

End Matcher.

(** ** The loop over the directory listing *)

Section ScanFacts.

Variable Data : Type.
Variable filePathOf : string -> string.
Variable require : string -> Completion (LoadedModule Data).

Lemma pattern_exec_shape (fileName : string) (matches : list string) :
  pattern_exec fileName = Some matches ->
  exists first second, matches = [fileName; first; second].
Proof.
  unfold pattern_exec.
  destruct (match_items fileNamePattern (list_ascii_of_string fileName));
    [|discriminate].
  intros H. injection H as <-. eauto.
Qed.

Lemma scan_rejected (fileName : string) (rest : list string)
      (ms : list (Migration Data)) (events : list DiscoveryEvent) :
  pattern_test fileName = false ->
  scan filePathOf require (fileName :: rest) ms events
  = if endsWith fileName ".map" then scan filePathOf require rest ms events
    else scan filePathOf require rest ms (events ++ [Warned fileName]).
Proof. intros Htest. simpl. now rewrite Htest. Qed.

Lemma scan_accepted (fileName : string) (rest : list string)
      (ms : list (Migration Data)) (events : list DiscoveryEvent) :
  pattern_test fileName = true ->
  scan filePathOf require (fileName :: rest) ms events
  = match require (filePathOf fileName) with
    | Threw e => (Threw e, events ++ [Required (filePathOf fileName)])
    | Returned m =>
        match m (version_of fileName) (name_of fileName) with
        | Threw e => (Threw e, events ++ [Required (filePathOf fileName)])
        | Returned (MigrationInstance migration) =>
            scan filePathOf require rest (ms ++ [migration])
                 (events ++ [Required (filePathOf fileName)])
        | Returned (OtherValue _) =>
            (Threw (notAMigration (filePathOf fileName)),
             events ++ [Required (filePathOf fileName)])
        end
    end.
Proof.
  intros Htest. simpl. rewrite Htest. simpl.
  destruct (require (filePathOf fileName)) as [m|e]; [|reflexivity].
  unfold version_of, name_of. unfold pattern_test in Htest.
  destruct (pattern_exec fileName) as [matches|] eqn:Hexec; [|discriminate].
  destruct (pattern_exec_shape _ Hexec) as (first & second & ->).
  reflexivity.
Qed.

Lemma discovery_log_app (l l' : list string) :
  discovery_log filePathOf (l ++ l')
  = discovery_log filePathOf l ++ discovery_log filePathOf l'.
Proof. unfold discovery_log. apply flat_map_app. Qed.

(** The loop either gets through the listing, or stops at the first
    accepted file that does not give a migration. *)
Lemma scan_cases (fileNames : list string) (ms0 : list (Migration Data))
      (ev0 : list DiscoveryEvent) :
  (exists found,
      scan filePathOf require fileNames ms0 ev0
      = (Returned (ms0 ++ found), ev0 ++ discovery_log filePathOf fileNames)
      /\ Forall2 (loads filePathOf require) (filter pattern_test fileNames) found)
  \/ (exists e before fileName after found,
         fileNames = before ++ fileName :: after
         /\ pattern_test fileName = true
         /\ fails_with filePathOf require fileName e
         /\ scan filePathOf require fileNames ms0 ev0
            = (Threw e, ev0 ++ discovery_log filePathOf (before ++ [fileName]))
         /\ Forall2 (loads filePathOf require) (filter pattern_test before) found).
Proof.
  revert ms0 ev0. induction fileNames as [|f rest IH]; intros ms0 ev0.
  - left. exists []. simpl. rewrite !app_nil_r. now split.
  - destruct (pattern_test f) eqn:Htest.
    + rewrite (@scan_accepted f rest ms0 ev0 Htest).
      assert (Hlog1 : discovery_log filePathOf [f] = [Required (filePathOf f)])
        by (unfold discovery_log; simpl; now rewrite Htest).
      assert (Hstop : forall e,
                 fails_with filePathOf require f e ->
                 exists e0 before fileName after found,
                   f :: rest = before ++ fileName :: after
                   /\ pattern_test fileName = true
                   /\ fails_with filePathOf require fileName e0
                   /\ (Threw e, ev0 ++ [Required (filePathOf f)])
                      = (Threw e0 : Completion (list (Migration Data)),
                         ev0 ++ discovery_log filePathOf (before ++ [fileName]))
                   /\ Forall2 (loads filePathOf require)
                              (filter pattern_test before) found).
      { intros e He. exists e, [], f, rest, [].
        change ([] ++ [f]) with [f]. rewrite Hlog1.
        repeat split; try assumption. constructor. }
      destruct (require (filePathOf f)) as [m|e] eqn:Hreq.
      2:{ right. apply Hstop. now left. }
      destruct (m (version_of f) (name_of f)) as [[mig|]|e] eqn:Hnew.
      * destruct (IH (ms0 ++ [mig]) (ev0 ++ [Required (filePathOf f)]))
          as [(found & Hrun & Hloads)
             |(e & before & g & after & found & Hsplit & Hg & Hfail & Hrun & Hloads)].
        -- left. exists (mig :: found). rewrite Hrun.
           change (f :: rest) with ([f] ++ rest).
           rewrite discovery_log_app, Hlog1, <- !app_assoc. simpl.
           split; [reflexivity|]. rewrite Htest.
           constructor; [|exact Hloads]. now exists m.
        -- right. exists e, (f :: before), g, after, (mig :: found).
           rewrite Hrun, Hsplit. simpl filter. rewrite Htest.
           change ((f :: before) ++ [g]) with ([f] ++ (before ++ [g])).
           rewrite (discovery_log_app [f] (before ++ [g])), Hlog1, <- !app_assoc.
           repeat split; try assumption.
           constructor; [|exact Hloads]. now exists m.
      * right. apply Hstop. right. exists m. split; [exact Hreq|].
        right. now split.
      * right. apply Hstop. right. exists m. split; [exact Hreq|]. now left.
    + rewrite (@scan_rejected f rest ms0 ev0 Htest).
      set (ev1 := if endsWith f ".map" then ev0 else ev0 ++ [Warned f]).
      assert (Hlog1 : ev0 ++ discovery_log filePathOf [f] = ev1).
      { unfold discovery_log, ev1. simpl. rewrite Htest.
        destruct (endsWith f ".map"); simpl; now rewrite ?app_nil_r. }
      assert (Hscan : (if endsWith f ".map"
                       then scan filePathOf require rest ms0 ev0
                       else scan filePathOf require rest ms0 (ev0 ++ [Warned f]))
                      = scan filePathOf require rest ms0 ev1).
      { unfold ev1. now destruct (endsWith f ".map"). }
      rewrite Hscan.
      destruct (IH ms0 ev1)
        as [(found & Hrun & Hloads)
           |(e & before & g & after & found & Hsplit & Hg & Hfail & Hrun & Hloads)].
      * left. exists found. rewrite Hrun.
        change (f :: rest) with ([f] ++ rest).
        rewrite discovery_log_app, app_assoc, Hlog1. simpl. rewrite Htest.
        now split.
      * right. exists e, (f :: before), g, after, found.
        rewrite Hrun, Hsplit. simpl filter. rewrite Htest.
        change ((f :: before) ++ [g]) with ([f] ++ (before ++ [g])).
        rewrite (discovery_log_app [f] (before ++ [g])), app_assoc, Hlog1.
        now repeat split.
Qed.

Lemma discovery_log_In (fileNames : list string) (event : DiscoveryEvent) :
  In event (discovery_log filePathOf fileNames) ->
  exists fileName,
    In fileName fileNames
    /\ ((pattern_test fileName = true /\ event = Required (filePathOf fileName))
        \/ (pattern_test fileName = false /\ endsWith fileName ".map" = false
            /\ event = Warned fileName)).
Proof.
  unfold discovery_log. rewrite in_flat_map. intros (f & Hf & Hin).
  exists f. split; [exact Hf|].
  destruct (pattern_test f); [|destruct (endsWith f ".map") eqn:Hmap].
  - destruct Hin as [<-|[]]. now left.
  - destruct Hin.
  - destruct Hin as [<-|[]]. right. now repeat split.
Qed.

End ScanFacts.

Section ConstructorFacts.

Variable Data : Type.
Variable filePathOf : string -> string.
Variable require : string -> Completion (LoadedModule Data).

Lemma Forall2_left_In {A B} (R : A -> B -> Prop) (l : list A) (l' : list B) :
  Forall2 R l l' -> forall a, In a l -> exists b, R a b.
Proof.
  induction 1 as [|a b l l' Hab _ IH]; intros x Hx; [destruct Hx|].
  destruct Hx as [<-|Hx]; [now exists b | now apply IH].
Qed.

Lemma loads_excludes_failure (fileName : string) (migration : Migration Data)
      (e : Thrown) :
  loads filePathOf require fileName migration ->
  fails_with filePathOf require fileName e -> False.
Proof.
  intros (m & Hreq & Hnew) [Hthrew|(m' & Hreq' & Hbad)].
  - congruence.
  - rewrite Hreq in Hreq'. injection Hreq' as <-.
    destruct Hbad as [Hbad|[Hbad _]]; congruence.
Qed.

(** X12 (start condition): the constructor returns a manager exactly when
    every file of the listing whose name the pattern accepts loads and
    exports a constructor that builds a [Migration]; files with other names
    have no say. *)
Theorem constructor_returns_iff (tenantCache : TenantCache Data)
        (fileNames : list string) :
  (exists manager events,
      constructManager filePathOf require tenantCache fileNames
      = (Returned manager, events))
  <-> (forall fileName,
          In fileName fileNames -> pattern_test fileName = true ->
          exists migration, loads filePathOf require fileName migration).
Proof.
  unfold constructManager.
  destruct (scan_cases filePathOf require fileNames [] [])
    as [(found & Hrun & Hloads)
       |(e & before & f & after & found & Hsplit & Hf & Hfail & Hrun & _)];
    rewrite Hrun; split.
  - intros _ fileName Hin Htest.
    eapply Forall2_left_In; [exact Hloads|].
    apply filter_In. now split.
  - intros _. eauto.
  - intros (manager & events & H). discriminate.
  - intros Hall. exfalso.
    destruct (Hall f) as (migration & Hloads); [|exact Hf|].
    + rewrite Hsplit. apply in_elt.
    + eapply loads_excludes_failure; eassumption.
Qed.

(** X13 (what the constructor builds): when the constructor returns, the
    manager has not run, holds the tenant source it was given, and its
    units are the instances built from the accepted files, one per file,
    sorted ascending by version; each accepted file was loaded once, in
    listing order, each rejected file was skipped, with a warning unless its
    name ends in [.map]. *)
Theorem constructor_result (tenantCache : TenantCache Data)
        (fileNames : list string) (manager : Manager Data)
        (events : list DiscoveryEvent) :
  constructManager filePathOf require tenantCache fileNames
  = (Returned manager, events) ->
  events = discovery_log filePathOf fileNames
  /\ ran manager = false
  /\ tenants manager = tenantCache
  /\ ascending (migrations manager)
  /\ exists found,
      Forall2 (loads filePathOf require) (filter pattern_test fileNames) found
      /\ Permutation found (migrations manager).
Proof.
  unfold constructManager.
  destruct (scan_cases filePathOf require fileNames [] [])
    as [(found & Hrun & Hloads)
       |(e & before & f & after & found & Hsplit & Hf & Hfail & Hrun & _)];
    rewrite Hrun; [|discriminate].
  intros H. injection H as <- <-.
  split; [reflexivity|]. split; [reflexivity|]. split; [reflexivity|].
  split; [apply newManager_ascending|].
  exists found. split; [exact Hloads|]. apply array_sort_permutation.
Qed.



End ConstructorFacts.

(** ** Versions read off file names *)

Lemma parse_leading_zeros (k : nat) (digits : list ascii) :
  parse_digits 0 (repeat "0"%char k ++ digits) = parse_digits 0 digits.
Proof. induction k as [|k IH]; [reflexivity | exact IH]. Qed.

Lemma version_of_accepted (fileName : string) (digits body : list ascii)
      (ext : ascii) :
  list_ascii_of_string fileName
  = digits ++ "_"%char :: body ++ ["."%char; ext; "s"%char] ->
  digits <> [] -> forallb is_digit digits = true ->
  body <> [] -> forallb is_name_char body = true ->
  ext = "t"%char \/ ext = "j"%char ->
  version_of fileName = to_number (parse_digits 0 digits)
  /\ name_of fileName = string_of_list_ascii body.
Proof.
  intros Hs Hd1 Hd2 Hb1 Hb2 Hext.
  unfold version_of, name_of, pattern_exec.
  rewrite (pattern_accepts Hs Hd1 Hd2 Hb1 Hb2 Hext). simpl.
  unfold parseInt. now rewrite list_ascii_of_string_of_list_ascii.
Qed.

(** X16 (leading zeros): the version of an accepted file name is the value
    of its digits with leading zeros ignored, so two accepted names whose
    digit runs differ only by leading zeros get the same version, whatever
    the rest of the names. *)
Theorem leading_zeros_collide (fileName fileName' : string) (k : nat)
        (digits body body' : list ascii) (ext ext' : ascii) :
  list_ascii_of_string fileName
  = (repeat "0"%char k ++ digits) ++ "_"%char :: body ++ ["."%char; ext; "s"%char] ->
  list_ascii_of_string fileName'
  = digits ++ "_"%char :: body' ++ ["."%char; ext'; "s"%char] ->
  digits <> [] -> forallb is_digit digits = true ->
  body <> [] -> forallb is_name_char body = true ->
  body' <> [] -> forallb is_name_char body' = true ->
  ext = "t"%char \/ ext = "j"%char ->
  ext' = "t"%char \/ ext' = "j"%char ->
  pattern_test fileName = true
  /\ pattern_test fileName' = true
  /\ version_of fileName = version_of fileName'.
Proof.
  intros Hs Hs' Hd1 Hd2 Hb1 Hb2 Hb1' Hb2' Hext Hext'.
  assert (Hz1 : repeat "0"%char k ++ digits <> []).
  { destruct k; simpl; [exact Hd1 | discriminate]. }
  assert (Hz2 : forallb is_digit (repeat "0"%char k ++ digits) = true).
  { rewrite forallb_app, Hd2, andb_true_r.
    clear. induction k as [|k IH]; [reflexivity | exact IH]. }
  destruct (version_of_accepted _ Hs Hz1 Hz2 Hb1 Hb2 Hext) as [Hv _].
  destruct (version_of_accepted _ Hs' Hd1 Hd2 Hb1' Hb2' Hext') as [Hv' _].
  split; [|split].
  - unfold pattern_test, pattern_exec.
    now rewrite (pattern_accepts Hs Hz1 Hz2 Hb1 Hb2 Hext).
  - unfold pattern_test, pattern_exec.
    now rewrite (pattern_accepts Hs' Hd1 Hd2 Hb1' Hb2' Hext').
  - now rewrite Hv, Hv', parse_leading_zeros.
Qed.

(** ** The instance itself *)

(** X17 (instance): whatever an entry point does and however it ends, the
    instance comes out marked as run, with the unit list and the tenant
    source it had; no call ever clears the mark or touches the list. *)
Theorem entry_point_keeps_units (Data : Type) (e : EntryPoint) (s : State Data) :
  ran (this (snd (enter e s))) = true
  /\ migrations (this (snd (enter e s))) = migrations (this s)
  /\ tenants (this (snd (enter e s))) = tenants (this s).
Proof. rewrite enter_marks_ran. now repeat split. Qed.

(** * The further properties at work *)

Ltac scenario_units :=
  let m := fresh "m" in
  let Hm := fresh "Hm" in
  intros m Hm; simpl in Hm;
  repeat (destruct Hm as [<-|Hm]); try contradiction.

Ltac scenario_hooks :=
  scenario_units;
  let kind := fresh "kind" in
  let h := fresh "h" in
  let Hh := fresh "Hh" in
  unfold hooks_keep_records, never_throws;
  intros kind h; intros;
  destruct kind;
  match goal with
  | Hh : hook_of _ _ = Some _ |- _ =>
      simpl in Hh; try discriminate; injection Hh as <-;
      try (unfold keeps_records; intros); reflexivity
  end.

Lemma entry_point_only_appends_witness :
  exists new,
    calls (snd (enter ExecutePending
                      (fresh Scenario.two_tenants
                             [Scenario.add_stories; Scenario.broken_index;
                              Scenario.create_users]
                             Scenario.one_completed)))
    = calls (fresh Scenario.two_tenants
                   [Scenario.add_stories; Scenario.broken_index;
                    Scenario.create_users]
                   Scenario.one_completed) ++ new
    /\ records (mongo (snd (enter ExecutePending
                                  (fresh Scenario.two_tenants
                                         [Scenario.add_stories; Scenario.broken_index;
                                          Scenario.create_users]
                                         Scenario.one_completed))))
       = records (mongo (fresh Scenario.two_tenants
                               [Scenario.add_stories; Scenario.broken_index;
                                Scenario.create_users]
                               Scenario.one_completed)) ++ written new.
Proof.
  apply entry_point_only_appends. scenario_hooks.
Defined.

Lemma run_completes_when_hooks_return_witness :
  exists s' new,
    executePendingMigrations
      (fresh Scenario.two_tenants [Scenario.add_stories; Scenario.create_users]
             Scenario.one_completed)
    = (Returned tt, s')
    /\ calls s' = [] ++ new
    /\ written new = [mkRecord 3 completed]
    /\ existsb is_down new = false.
Proof.
  refine (@run_completes_when_hooks_return nat
            (fresh Scenario.two_tenants
                   [Scenario.add_stories; Scenario.create_users]
                   Scenario.one_completed) _ _ _).
  - reflexivity.
  - simpl. intros r [<-|[]]. reflexivity.
  - scenario_hooks.
Defined.

Lemma constant_source_log_witness :
  exists s',
    executePendingMigrations
      (fresh Scenario.two_tenants [Scenario.add_stories; Scenario.create_users]
             Scenario.empty_store)
    = (Returned tt, s')
    /\ calls s'
       = [RetrieveAll; RetrieveAll;
          IterateTenants [Scenario.t1; Scenario.t2];
          Invoke Up 1 "t1" None; Invoke Up 1 "t2" None;
          CreateRecord 1;
          IterateTenants [Scenario.t1; Scenario.t2];
          Invoke Up 3 "t1" None; Invoke Test 3 "t1" None;
          Invoke Up 3 "t2" None; Invoke Test 3 "t2" None;
          CreateRecord 3;
          RetrieveAll].
Proof.
  refine (@constant_source_log nat
            (fresh Scenario.two_tenants
                   [Scenario.add_stories; Scenario.create_users]
                   Scenario.empty_store)
            [Scenario.t1; Scenario.t2] _ _ _ _).
  - reflexivity.
  - simpl. intros r [].
  - scenario_hooks.
  - intros db. reflexivity.
Defined.

Lemma nothing_pending_is_noop_witness :
  exists s',
    executePendingMigrations
      (fresh Scenario.two_tenants [Scenario.create_users] Scenario.one_completed)
    = (Returned tt, s')
    /\ mongo s' = Scenario.one_completed
    /\ calls s' = [] ++ [RetrieveAll; RetrieveAll].
Proof.
  refine (@nothing_pending_is_noop nat
            (fresh Scenario.two_tenants [Scenario.create_users]
                   Scenario.one_completed) _ _ _).
  - reflexivity.
  - simpl. intros r [<-|[]]. reflexivity.
  - scenario_units. exists (mkRecord 1 completed). split; [now left | reflexivity].
Defined.

Lemma rerun_after_success_is_noop_witness :
  exists s',
    executePendingMigrations
      (fresh Scenario.no_tenants [Scenario.add_stories; Scenario.create_users]
             (mongo (snd (executePendingMigrations
                            (fresh Scenario.two_tenants
                                   [Scenario.add_stories; Scenario.create_users]
                                   Scenario.empty_store)))))
    = (Returned tt, s')
    /\ mongo s'
       = mongo (snd (executePendingMigrations
                       (fresh Scenario.two_tenants
                              [Scenario.add_stories; Scenario.create_users]
                              Scenario.empty_store)))
    /\ calls s' = [RetrieveAll; RetrieveAll].
Proof.
  apply rerun_after_success_is_noop.
  - scenario_hooks.
  - reflexivity.
Defined.

Lemma failed_record_trips_next_start_witness :
  exists s',
    executePendingMigrations
      (fresh Scenario.no_tenants [Scenario.create_users]
             (mongo (snd (executePendingMigrations
                            (fresh Scenario.two_tenants
                                   [Scenario.add_stories; Scenario.broken_index;
                                    Scenario.create_users]
                                   Scenario.empty_store)))))
    = (Threw (FailedMigrationDetectedError (mkRecord 2 failed)), s')
    /\ mongo s'
       = mongo (snd (executePendingMigrations
                       (fresh Scenario.two_tenants
                              [Scenario.add_stories; Scenario.broken_index;
                               Scenario.create_users]
                              Scenario.empty_store)))
    /\ calls s' = [RetrieveAll; RetrieveAll].
Proof.
  apply failed_record_trips_next_start.
  - scenario_hooks.
  - vm_compute. do 9 right. left. reflexivity.
Defined.

Lemma recorded_units_never_run_witness :
  (exists m, In m [Scenario.add_stories; Scenario.create_users] /\ version m = 3%N)
  /\ forall r, In r (records Scenario.one_completed) -> record_version r <> 3%N.
Proof.
  refine (@recorded_units_never_run nat Scenario.two_tenants
            [Scenario.add_stories; Scenario.create_users]
            Scenario.one_completed Up 3 "t1" None _).
  vm_compute. do 3 right. left. reflexivity.
Defined.

Lemma down_only_after_failure_witness :
  exists pre0 kind err,
    kind <> Down
    /\ [RetrieveAll; RetrieveAll;
        IterateTenants [Scenario.t1; Scenario.t2];
        Invoke Up 1 "t1" None; Invoke Up 1 "t2" None;
        CreateRecord 1;
        IterateTenants [Scenario.t1; Scenario.t2];
        Invoke Up 2 "t1" (Some (Error "up failed"))]
       = pre0 ++ [Invoke kind 2 "t1" (Some err)]
    /\ ((@None Thrown = None /\ [CreateFailedRecord 2] = [CreateFailedRecord 2]
         /\ fst (executePendingMigrations
                   (fresh Scenario.two_tenants
                          [Scenario.add_stories; Scenario.broken_index;
                           Scenario.create_users]
                          Scenario.empty_store))
            = Threw err)
        \/ (exists err',
              None = Some err' /\ [CreateFailedRecord 2] = []
              /\ fst (executePendingMigrations
                        (fresh Scenario.two_tenants
                               [Scenario.add_stories; Scenario.broken_index;
                                Scenario.create_users]
                               Scenario.empty_store))
                 = Threw err')).
Proof.
  refine (@down_only_after_failure nat Scenario.two_tenants
            [Scenario.add_stories; Scenario.broken_index; Scenario.create_users]
            Scenario.empty_store
            [RetrieveAll; RetrieveAll;
             IterateTenants [Scenario.t1; Scenario.t2];
             Invoke Up 1 "t1" None; Invoke Up 1 "t2" None;
             CreateRecord 1;
             IterateTenants [Scenario.t1; Scenario.t2];
             Invoke Up 2 "t1" (Some (Error "up failed"))]
            [CreateFailedRecord 2] 2 "t1" None _).
  reflexivity.
Defined.

Lemma nothing_pending_after_skip_witness :
  exists s',
    executePendingMigrations
      (fresh Scenario.two_tenants [Scenario.add_stories; Scenario.create_users]
             (mongo (snd (skipPendingMigrations
                            (fresh Scenario.two_tenants
                                   [Scenario.add_stories; Scenario.create_users]
                                   Scenario.empty_store)))))
    = (Returned tt, s')
    /\ mongo s'
       = mongo (snd (skipPendingMigrations
                       (fresh Scenario.two_tenants
                              [Scenario.add_stories; Scenario.create_users]
                              Scenario.empty_store)))
    /\ calls s' = [RetrieveAll; RetrieveAll].
Proof.
  apply nothing_pending_after_skip. reflexivity.
Defined.

Lemma constructor_result_witness :
  [Required "/srv/migrations/1554318843000_add_index.ts";
   Warned "README.md"; Required "/srv/migrations/2_create_users.js"]
  = discovery_log Listing.filePathOf Listing.listing
  /\ ran (newManager Scenario.two_tenants
                     [mkMigration 1554318843000 "add_index" Scenario.returns None None;
                      mkMigration 2 "create_users" Scenario.returns None None])
     = false
  /\ tenants (newManager Scenario.two_tenants
                         [mkMigration 1554318843000 "add_index" Scenario.returns None None;
                          mkMigration 2 "create_users" Scenario.returns None None])
     = Scenario.two_tenants
  /\ ascending (migrations
                  (newManager Scenario.two_tenants
                              [mkMigration 1554318843000 "add_index"
                                           Scenario.returns None None;
                               mkMigration 2 "create_users"
                                           Scenario.returns None None]))
  /\ exists found,
      Forall2 (loads Listing.filePathOf Listing.require_units)
              (filter pattern_test Listing.listing) found
      /\ Permutation found
                     (migrations
                        (newManager Scenario.two_tenants
                                    [mkMigration 1554318843000 "add_index"
                                                 Scenario.returns None None;
                                     mkMigration 2 "create_users"
                                                 Scenario.returns None None])).
Proof.
  apply (@constructor_result nat Listing.filePathOf Listing.require_units
           Scenario.two_tenants Listing.listing).
  reflexivity.
Defined.



Lemma leading_zeros_collide_witness :
  pattern_test "01_a.ts" = true
  /\ pattern_test "1_b.js" = true
  /\ version_of "01_a.ts" = version_of "1_b.js".
Proof.
  refine (@leading_zeros_collide "01_a.ts" "1_b.js" 1
            ["1"%char] ["a"%char] ["b"%char] "t"%char "j"%char
            _ _ _ _ _ _ _ _ _ _);
    try reflexivity; try discriminate; auto.
Defined.
